(** * Google Calendar bulk updater: a shallow embedding of
      [scripts/calendar_updater.py] and its specification.

    The development follows the source file top to bottom:
    - [PyStr]: the [str] methods the script calls ([lower], [strip], [in]);
    - the event data model and the remote calendar service interface;
    - [_authenticate], [find_events] and [bulk_update];
    - an in-memory calendar service used to run the scenarios;
    - the properties of the specification, one theorem each. *)

From Stdlib Require Import String Ascii List Bool NArith ZArith Lia.
From stdpp Require Import base option gmap strings list.

Local Open Scope string_scope.
Local Open Scope list_scope.

(** ** Python strings

    A [str] is modelled as a [string] whose characters are the code points
    0..255 (the Latin-1 range), on which [lower], [isspace] and [strip]
    below agree with CPython character by character. *)
Module PyStr.

(** Line feed, the ["\n"] of the source. *)
Definition LF : string := String (ascii_of_N 10) EmptyString.

(** [str.lower] on one code point: A-Z and the Latin-1 capitals
    (0xC0-0xDE except the multiplication sign 0xD7) move up by 32. *)
Definition lower_char (c : ascii) : ascii :=
  let n := N_of_ascii c in
  if ((65 <=? n) && (n <=? 90)
      || (192 <=? n) && (n <=? 222) && negb (n =? 215))%N
  then ascii_of_N (n + 32) else c.

Fixpoint lower (s : string) : string :=
  match s with
  | EmptyString => EmptyString
  | String c s' => String (lower_char c) (lower s')
  end.

(** [str.isspace] on one code point: TAB..CR, FS..US and SPACE, NEL, NBSP. *)
Definition isspace (c : ascii) : bool :=
  let n := N_of_ascii c in
  ((9 <=? n) && (n <=? 13) || (28 <=? n) && (n <=? 32)
   || (n =? 133) || (n =? 160))%N.

Fixpoint lstrip (s : string) : string :=
  match s with
  | EmptyString => EmptyString
  | String c s' => if isspace c then lstrip s' else s
  end.

Fixpoint rstrip (s : string) : string :=
  match s with
  | EmptyString => EmptyString
  | String c s' =>
      match rstrip s' with
      | EmptyString => if isspace c then EmptyString else String c EmptyString
      | r => String c r
      end
  end.

(** [s.strip()] with no argument. *)
Definition strip (s : string) : string := rstrip (lstrip s).

Fixpoint startswith (p s : string) : bool :=
  match p, s with
  | EmptyString, _ => true
  | String _ _, EmptyString => false
  | String a p', String b s' => if Ascii.eqb a b then startswith p' s' else false
  end.

(** [sub in s]: [sub] occurs in [s] at some offset. *)
Fixpoint contains (sub s : string) : bool :=
  startswith sub s
  || match s with
     | EmptyString => false
     | String _ s' => contains sub s'
     end.

(** Truth value of an optional string argument: [None] and [""] are falsy. *)
Definition truthy (o : option string) : bool :=
  match o with
  | Some (String _ _) => true
  | _ => false
  end.

(** *** Reference notions used to state the properties *)

(** [sub] is a contiguous substring of [s]. *)
Definition Substring (sub s : string) : Prop :=
  exists pre post, s = pre +:+ sub +:+ post.

Fixpoint all_space (s : string) : bool :=
  match s with
  | EmptyString => true
  | String c s' => isspace c && all_space s'
  end.

Definition starts_with_space (s : string) : bool :=
  match s with
  | EmptyString => false
  | String c _ => isspace c
  end.

Fixpoint ends_with_space (s : string) : bool :=
  match s with
  | EmptyString => false
  | String c EmptyString => isspace c
  | String _ s' => ends_with_space s'
  end.

(** [t] is [s] trimmed of leading and trailing whitespace. *)
Definition Trimmed (s t : string) : Prop :=
  (exists l r, s = l +:+ t +:+ r /\ all_space l = true /\ all_space r = true)
  /\ starts_with_space t = false
  /\ ends_with_space t = false.

End PyStr.

Section PyStrFacts.
Import PyStr.

(** stdpp keeps [String.append] folded under [simpl]; these are its two
    defining equations. *)
Lemma app_nil_str (t : string) : "" +:+ t = t.
Proof. reflexivity. Qed.

Lemma app_cons_str (c : ascii) (s t : string) :
  String c s +:+ t = String c (s +:+ t).
Proof. reflexivity. Qed.

Lemma startswith_spec (p s : string) :
  startswith p s = true <-> exists post, s = p +:+ post.
Proof.
  revert s. induction p as [|a p IH]; intros s; simpl.
  - split; [intros _; now exists s | reflexivity].
  - destruct s as [|b s].
    + split; [discriminate | intros [post H]; discriminate].
    + destruct (Ascii.eqb_spec a b) as [->|Hne].
      * rewrite IH. split; intros [post H]; exists post.
        -- now rewrite app_cons_str, H.
        -- rewrite app_cons_str in H. now injection H.
      * split; [discriminate|].
        intros [post H]. rewrite app_cons_str in H. injection H. congruence.
Qed.

Lemma contains_spec (sub s : string) :
  contains sub s = true <-> Substring sub s.
Proof.
  unfold Substring. induction s as [|c s IH]; simpl.
  - rewrite orb_false_r, startswith_spec. split.
    + intros [post H]. now exists "", post.
    + intros [[|x pre] [post H]]; [now exists post | discriminate].
  - rewrite orb_true_iff, startswith_spec, IH. split.
    + intros [[post H] | [pre [post H]]].
      * now exists "", post.
      * exists (String c pre), post. now rewrite app_cons_str, H.
    + intros [[|x pre] [post H]].
      * left. now exists post.
      * right. exists pre, post. rewrite app_cons_str in H. now injection H.
Qed.

Lemma lower_empty_iff (s : string) : lower s = "" <-> s = "".
Proof. destruct s; simpl; split; intros H; try reflexivity; discriminate. Qed.

Lemma substring_empty_iff (sub : string) : Substring sub "" <-> sub = "".
Proof.
  split.
  - intros [[|x pre] [post H]]; [|discriminate].
    destruct sub; [reflexivity | discriminate].
  - intros ->. now exists "", "".
Qed.

(** *** [strip] trims exactly the surrounding whitespace *)

Lemma lstrip_split (s : string) :
  exists l, s = l +:+ lstrip s /\ all_space l = true.
Proof.
  induction s as [|c s [l [IH Hl]]]; simpl.
  - now exists "".
  - destruct (isspace c) eqn:Hc.
    + exists (String c l). simpl. rewrite Hc, Hl, app_cons_str, <- IH. split; reflexivity.
    + now exists "".
Qed.

Lemma lstrip_head (s : string) : starts_with_space (lstrip s) = false.
Proof.
  induction s as [|c s IH]; simpl; [reflexivity|].
  destruct (isspace c) eqn:Hc; [exact IH | simpl; exact Hc].
Qed.

Lemma rstrip_split (s : string) :
  exists r, s = rstrip s +:+ r /\ all_space r = true.
Proof.
  induction s as [|c s [r [IH Hr]]]; simpl.
  - now exists "".
  - destruct (rstrip s) as [|d t] eqn:Hs.
    + rewrite app_nil_str in IH. subst r. destruct (isspace c) eqn:Hc.
      * exists (String c s). simpl. rewrite Hc, Hr. split; reflexivity.
      * exists s. rewrite app_cons_str, app_nil_str. split; [reflexivity | assumption].
    + exists r. rewrite app_cons_str, <- IH. split; [reflexivity | assumption].
Qed.

Lemma rstrip_last (s : string) : ends_with_space (rstrip s) = false.
Proof.
  induction s as [|c s IH]; simpl; [reflexivity|].
  destruct (rstrip s) as [|d t] eqn:Hs.
  - destruct (isspace c) eqn:Hc; simpl; [reflexivity | exact Hc].
  - exact IH.
Qed.

Lemma rstrip_head (s : string) :
  starts_with_space s = false -> starts_with_space (rstrip s) = false.
Proof.
  destruct s as [|c s]; simpl; [reflexivity|]. intros Hc.
  destruct (rstrip s); [rewrite Hc|]; simpl; assumption.
Qed.

Lemma strip_trimmed (s : string) : Trimmed s (strip s).
Proof.
  unfold Trimmed, strip.
  destruct (lstrip_split s) as [l [Hl Hls]].
  destruct (rstrip_split (lstrip s)) as [r [Hr Hrs]].
  split; [|split].
  - exists l, r. split; [|split; assumption].
    now rewrite <- Hr.
  - apply rstrip_head, lstrip_head.
  - apply rstrip_last.
Qed.

End PyStrFacts.

(** ** Data model *)

(** An exception is represented by its message, [str(e)]. *)
Definition exn : Type := string.

(** An event resource of the calendar service.  The service always sends
    the identifier, so [event['id']] is a projection; every other member
    ([summary], [description], [location], [colorId], [start], ...) lives in
    the dictionary [event_fields] and may be absent.  Members the script
    never inspects are kept as the text of their JSON value. *)
Record Event := mkEvent {
  event_id : string;
  event_fields : gmap string string
}.

(** [event.get(key, default)]. *)
Definition event_get (event : Event) (key default : string) : string :=
  match event_fields event !! key with
  | Some v => v
  | None => default
  end.

(** [event.get('summary', 'Untitled')], the title used in the reports. *)
Definition event_title (event : Event) : string :=
  event_get event "summary" "Untitled".

(** The optional keyword arguments of [bulk_update] that select what to
    change; the specification calls this bundle the UpdateSpec. *)
Record UpdateSpec := mkUpdateSpec {
  new_title : option string;
  new_description : option string;
  new_location : option string;
  new_color_id : option string;
  append_to_description : option string
}.

(** The call with none of the optional arguments supplied. *)
Definition no_updates : UpdateSpec := mkUpdateSpec None None None None None.

(** Instants of [datetime], counted in microseconds; [add_days d n] is
    [d + timedelta(days=n)].  Instants are taken within the range of
    [datetime], where the sum is defined: past [datetime.max] Python
    raises [OverflowError] instead, which these definitions do not show. *)
Definition datetime : Type := Z.
Definition microseconds_per_day : Z := 86400000000%Z.
Definition add_days (d : datetime) (n : Z) : datetime :=
  (d + n * microseconds_per_day)%Z.

(** *** The remote service boundary *)

Record list_request := mkListRequest {
  calendarId : string;
  timeMin : datetime;
  timeMax : datetime;
  maxResults : Z;
  singleEvents : bool;
  orderBy : string
}.

(** The listing reply; [items] may be missing from it. *)
Record list_response := mkListResponse {
  items : option (list Event)
}.

(** The three calls the script issues, over a service state [R].  Each call
    either raises ([inl]) or returns ([inr]) and may change the state. *)
Class CalendarService (R : Type) := {
  events_list : R -> list_request -> R * (exn + list_response);
  events_get : R -> string -> string -> R * (exn + Event);
  events_update : R -> string -> string -> Event -> R * (exn + Event)
}.

(** Remote calls, recorded in the order they are issued. *)
Inductive call :=
| ListCall (req : list_request)
| GetCall (calendar_id eventId : string)
| UpdateCall (calendar_id eventId : string) (body : Event).

(** Lines written by [print], kept structured instead of formatted. *)
Inductive output :=
| Searching (start_date end_date : datetime)
| FoundMatching (n : nat) (title_contains : string)
| Found (n : nat)
| DryRun (event_title : string) (updates : gmap string string)
| Updated (event_title : string)
| Failed (event_title : string) (e : exn).

(** What the script can act on: the service, and its own output. *)
Record World (R : Type) := mkWorld {
  remote : R;
  calls : list call;
  stdout : list output
}.
Arguments mkWorld {R}.
Arguments remote {R}.
Arguments calls {R}.
Arguments stdout {R}.

Definition print {R} (w : World R) (o : output) : World R :=
  mkWorld (remote w) (calls w) (stdout w ++ [o]).

Definition issue {R} (w : World R) (c : call) (r : R) : World R :=
  mkWorld r (calls w ++ [c]) (stdout w).

(** ** Session manager: [_authenticate] *)

Record Credentials := mkCredentials {
  valid : bool;
  expired : bool;
  refresh_token : option string
}.

(** The files and the authorisation server [_authenticate] talks to. *)
Record AuthEnv := mkAuthEnv {
  token_file : option Credentials;
  client_secret_exists : bool;
  refresh : Credentials -> exn + Credentials;
  run_local_server : exn + Credentials
}.

Inductive auth_result :=
| MissingClientSecret (credentials_path : string)
| AuthorizationFailure (e : exn)
| Session (creds : Credentials).

Definition save_token (env : AuthEnv) (creds : Credentials) : AuthEnv :=
  mkAuthEnv (Some creds) (client_secret_exists env) (refresh env)
            (run_local_server env).

Definition raised (r : exn + Credentials) : auth_result :=
  match r with
  | inl e => AuthorizationFailure e
  | inr c => Session c
  end.

Definition _authenticate (credentials_path : string) (env : AuthEnv)
  : AuthEnv * auth_result :=
  (* creds = None, or the cached token when its file exists *)
  let creds := token_file env in
  (* the interactive grant of the innermost else *)
  let grant :=
    if negb (client_secret_exists env)
    then MissingClientSecret credentials_path
    else raised (run_local_server env) in
  (* the body of [if not creds or not creds.valid] *)
  let renew :=
    let obtained :=
      match creds with
      | Some c =>
          if expired c && PyStr.truthy (refresh_token c)
          then raised (refresh env c)
          else grant
      | None => grant
      end in
    match obtained with
    | Session c' => (save_token env c', Session c')
    | failure => (env, failure)
    end in
  match creds with
  | None => renew
  | Some c => if negb (valid c) then renew else (env, Session c)
  end.

(** ** Bulk editor: [find_events] and [bulk_update] *)

Section BulkEditor.
Context {R : Type} `{CalendarService R}.

(** The comprehension of [find_events]: keep [e] when
    [title_contains.lower() in e.get('summary', '').lower()]. *)
Definition title_matches (title_contains : string) (e : Event) : bool :=
  PyStr.contains (PyStr.lower title_contains)
                 (PyStr.lower (event_get e "summary" "")).

(** The listing request [find_events] builds, defaults included:
    [start_date] falls back to the current time and [end_date] to
    [start_date + timedelta(days=365)]. *)
Definition listing_request (utcnow : datetime) (calendar_id : string)
    (start_date end_date : option datetime) (max_results : Z)
  : list_request :=
  let start_date := match start_date with Some d => d | None => utcnow end in
  let end_date :=
    match end_date with Some d => d | None => add_days start_date 365 end in
  mkListRequest calendar_id start_date end_date max_results true "startTime".

Definition find_events (w : World R) (utcnow : datetime)
    (calendar_id : string) (title_contains : option string)
    (start_date end_date : option datetime) (max_results : Z)
  : World R * (exn + list Event) :=
  let req :=
    listing_request utcnow calendar_id start_date end_date max_results in
  let w := print w (Searching (timeMin req) (timeMax req)) in
  let '(r, reply) := events_list (remote w) req in
  let w := issue w (ListCall req) r in
  match reply with
  | inl e => (w, inl e)
  | inr events_result =>
      (* events_result.get('items', []) *)
      let events :=
        match items events_result with Some l => l | None => [] end in
      if PyStr.truthy title_contains then
        let needle := default "" title_contains in
        let events := List.filter (title_matches needle) events in
        (print w (FoundMatching (length events) needle), inr events)
      else
        (print w (Found (length events)), inr events)
  end.

(** The "Prepare updates" block of the loop body: the changed-field
    mapping for one event. *)
Definition prepare_updates (event : Event) (u : UpdateSpec)
  : gmap string string :=
  (* inside each [if], the tested argument is a non-empty string, which
     [default ""] unwraps; [str(new_color_id)] is that string itself *)
  let updates : gmap string string := ∅ in
  let updates :=
    if PyStr.truthy (new_title u)
    then <["summary" := default "" (new_title u)]> updates
    else updates in
  let updates :=
    if PyStr.truthy (new_description u)
    then <["description" := default "" (new_description u)]> updates
    else if PyStr.truthy (append_to_description u) then
      let existing_desc := event_get event "description" "" in
      <["description" :=
          PyStr.strip (existing_desc +:+ PyStr.LF
                       +:+ default "" (append_to_description u))]> updates
    else updates in
  let updates :=
    if PyStr.truthy (new_location u)
    then <["location" := default "" (new_location u)]> updates
    else updates in
  let updates :=
    if PyStr.truthy (new_color_id u)
    then <["colorId" := default "" (new_color_id u)]> updates
    else updates in
  updates.

(** [full_event.update(updates)]: the keys of [updates] win. *)
Definition dict_update (full_event : Event) (updates : gmap string string)
  : Event :=
  mkEvent (event_id full_event) (updates ∪ event_fields full_event).

(** One iteration of the loop, on the pair (world, [updated_count]). *)
Definition update_event (calendar_id : string) (u : UpdateSpec)
    (dry_run : bool) (st : World R * nat) (event : Event) : World R * nat :=
  let '(w, updated_count) := st in
  let eid := event_id event in
  let event_title := event_title event in
  let updates := prepare_updates event u in
  if decide (updates = ∅) then (w, updated_count)
  else if dry_run then (print w (DryRun event_title updates), updated_count)
  else
    let '(r, got) := events_get (remote w) calendar_id eid in
    let w := issue w (GetCall calendar_id eid) r in
    match got with
    | inl e => (print w (Failed event_title e), updated_count)
    | inr full_event =>
        let full_event := dict_update full_event updates in
        let '(r, put) := events_update (remote w) calendar_id eid full_event in
        let w := issue w (UpdateCall calendar_id eid full_event) r in
        match put with
        | inl e => (print w (Failed event_title e), updated_count)
        | inr _ => (print w (Updated event_title), S updated_count)
        end
    end.

Definition bulk_update (w : World R) (events : list Event)
    (calendar_id : string) (u : UpdateSpec) (dry_run : bool)
  : World R * nat :=
  fold_left (update_event calendar_id u dry_run) events (w, 0).

End BulkEditor.

(** ** An in-memory calendar service

    A reference implementation of the remote boundary, used to run the
    scenarios: events are stored per (calendar, identifier); [get] returns
    the stored resource, [update] replaces it, and both answer
    ["Not Found"] for an unknown event.  [mem_agenda] lists, per calendar,
    the identifiers of the events of the requested window in start-time
    order.  [mem_get_faults] and [mem_update_faults] make the call on the
    given event identifier fail with the given message. *)
Record MemRemote := mkMem {
  mem_events : gmap (string * string) Event;
  mem_agenda : gmap string (list string);
  mem_get_faults : gmap string exn;
  mem_update_faults : gmap string exn
}.

Definition mem_list (m : MemRemote) (req : list_request)
  : MemRemote * (exn + list_response) :=
  match mem_agenda m !! calendarId req with
  | None => (m, inl "Not Found")
  | Some ids =>
      let found := omap (fun i => mem_events m !! (calendarId req, i)) ids in
      (m, inr (mkListResponse (Some (take (Z.to_nat (maxResults req)) found))))
  end.

Definition mem_get (m : MemRemote) (calendar_id eid : string)
  : MemRemote * (exn + Event) :=
  match mem_get_faults m !! eid with
  | Some e => (m, inl e)
  | None =>
      match mem_events m !! (calendar_id, eid) with
      | None => (m, inl "Not Found")
      | Some ev => (m, inr ev)
      end
  end.

Definition mem_update (m : MemRemote) (calendar_id eid : string) (body : Event)
  : MemRemote * (exn + Event) :=
  match mem_update_faults m !! eid with
  | Some e => (m, inl e)
  | None =>
      match mem_events m !! (calendar_id, eid) with
      | None => (m, inl "Not Found")
      | Some _ =>
          (mkMem (<[(calendar_id, eid) := body]> (mem_events m)) (mem_agenda m)
                 (mem_get_faults m) (mem_update_faults m),
           inr body)
      end
  end.

#[export] Instance mem_service : CalendarService MemRemote := {
  events_list := mem_list;
  events_get := mem_get;
  events_update := mem_update
}.

(** A fresh world around a service state: nothing called, nothing printed. *)
Definition start {R} (r : R) : World R := mkWorld r [] [].

(** The titles of a list of events, as [find_events] would match them. *)
Definition titles (events : list Event) : list string :=
  map (fun e => event_get e "summary" "") events.

(** An event with the given identifier, title and, optionally, description. *)
Definition sample_event (eid title : string) (description : option string)
  : Event :=
  mkEvent eid
    (match description with
     | Some d => <["description" := d]> {["summary" := title]}
     | None => {["summary" := title]}
     end).

(** A calendar ["primary"] holding the given events in this order. *)
Definition sample_calendar (events : list Event) : MemRemote :=
  mkMem (list_to_map (map (fun e => (("primary", event_id e), e)) events))
        {["primary" := map event_id events]} ∅ ∅.

(** The UpdateSpec [u] with its append text withdrawn. *)
Definition without_append (u : UpdateSpec) : UpdateSpec :=
  mkUpdateSpec (new_title u) (new_description u) (new_location u)
               (new_color_id u) None.

(** ** Facts about the loop of [bulk_update] *)

Section BulkUpdateFacts.
Context {R : Type} `{CalendarService R}.
Import PyStr.

Lemma truthy_default (o : option string) :
  truthy o = true -> o = Some (default "" o).
Proof. destruct o as [[|c s]|]; simpl; intros Ht; congruence. Qed.

Lemma truthy_nonempty (o : option string) :
  truthy o = true -> default "" o <> "".
Proof. destruct o as [[|c s]|]; simpl; intros Ht; congruence. Qed.

Lemma title_matches_spec (needle : string) (e : Event) :
  title_matches needle e = true
  <-> Substring (lower needle) (lower (event_get e "summary" "")).
Proof. unfold title_matches. apply contains_spec. Qed.

Lemma filter_sublist {A} (f : A -> bool) (l : list A) :
  sublist (List.filter f l) l.
Proof.
  induction l as [|x l IH]; simpl; [constructor|].
  destruct (f x); now constructor.
Qed.

Lemma filter_all {A} (f : A -> bool) (l : list A) :
  (forall x, f x = true) -> List.filter f l = l.
Proof.
  intros Hf. induction l as [|x l IH]; simpl; [reflexivity|].
  now rewrite Hf, IH.
Qed.

(** The description entry of the changed-field mapping. *)
Lemma prepare_updates_description (event : Event) (u : UpdateSpec) :
  prepare_updates event u !! "description" =
    if truthy (new_description u) then new_description u
    else if truthy (append_to_description u)
         then Some (strip (event_get event "description" "" +:+ LF
                           +:+ default "" (append_to_description u)))
         else None.
Proof.
  unfold prepare_updates.
  destruct (truthy (new_title u)), (truthy (new_description u)) eqn:Hd,
    (truthy (append_to_description u)), (truthy (new_location u)),
    (truthy (new_color_id u));
    simplify_map_eq; try reflexivity;
    symmetry; now apply truthy_default.
Qed.

(** Only the append text distinguishes [u] from [without_append u], and
    it is consulted only when no full description is supplied. *)
Lemma prepare_updates_without_append (event : Event) (u : UpdateSpec) :
  truthy (new_description u) = true ->
  prepare_updates event u = prepare_updates event (without_append u).
Proof. intros Hd. unfold prepare_updates. simpl. now rewrite Hd. Qed.

Lemma bulk_update_ext (u u' : UpdateSpec) (w : World R)
    (events : list Event) (calendar_id : string) (dry_run : bool) :
  (forall e, prepare_updates e u = prepare_updates e u') ->
  bulk_update w events calendar_id u dry_run
  = bulk_update w events calendar_id u' dry_run.
Proof.
  intros Hext. unfold bulk_update. generalize (w, 0).
  induction events as [|e events IH]; intros st; simpl; [reflexivity|].
  rewrite IH. f_equal. unfold update_event. destruct st as [w0 n].
  now rewrite Hext.
Qed.

Lemma bulk_update_app (w : World R) (l1 l2 : list Event)
    (calendar_id : string) (u : UpdateSpec) (dry_run : bool) :
  bulk_update w (l1 ++ l2) calendar_id u dry_run
  = fold_left (update_event calendar_id u dry_run) l2
              (bulk_update w l1 calendar_id u dry_run).
Proof. unfold bulk_update. apply fold_left_app. Qed.

(** An iteration that finds nothing to change leaves everything as is. *)
Lemma update_event_skip (calendar_id : string) (u : UpdateSpec)
    (dry_run : bool) (st : World R * nat) (event : Event) :
  prepare_updates event u = ∅ ->
  update_event calendar_id u dry_run st event = st.
Proof.
  intros He. unfold update_event. destruct st as [w n].
  rewrite He. now rewrite decide_True.
Qed.

(** A dry-run iteration touches neither the service nor the counter. *)
Lemma update_event_dry_run (calendar_id : string) (u : UpdateSpec)
    (st : World R * nat) (event : Event) :
  let st' := update_event calendar_id u true st event in
  remote (fst st') = remote (fst st)
  /\ calls (fst st') = calls (fst st)
  /\ snd st' = snd st
  /\ exists lines : list output, stdout (fst st') = (stdout (fst st) ++ lines)%list.
Proof.
  unfold update_event. destruct st as [w n]. simpl.
  destruct (decide (prepare_updates event u = ∅)); simpl.
  - repeat split; try reflexivity. exists []. now rewrite app_nil_r.
  - repeat split; try reflexivity. eauto.
Qed.

Lemma fold_dry_run (calendar_id : string) (u : UpdateSpec)
    (events : list Event) (st : World R * nat) :
  let st' := fold_left (update_event calendar_id u true) events st in
  remote (fst st') = remote (fst st)
  /\ calls (fst st') = calls (fst st)
  /\ snd st' = snd st
  /\ exists lines : list output, stdout (fst st') = (stdout (fst st) ++ lines)%list.
Proof.
  revert st. induction events as [|e events IH]; intros st; simpl.
  - repeat split; try reflexivity. exists []. now rewrite app_nil_r.
  - destruct (IH (update_event calendar_id u true st e)) as (Hr & Hc & Hn & l2 & Ho).
    destruct (update_event_dry_run calendar_id u st e) as (Hr1 & Hc1 & Hn1 & l1 & Ho1).
    simpl in *. rewrite Hr, Hc, Hn, Ho, Hr1, Hc1, Hn1, Ho1.
    repeat split; try reflexivity. exists (l1 ++ l2). now rewrite app_assoc.
Qed.

(** Every iteration adds at most one to the counter. *)
Lemma update_event_count (calendar_id : string) (u : UpdateSpec)
    (dry_run : bool) (st : World R * nat) (event : Event) :
  snd st <= snd (update_event calendar_id u dry_run st event) <= S (snd st).
Proof.
  unfold update_event. destruct st as [w n]. simpl.
  destruct (decide (prepare_updates event u = ∅)); simpl; [lia|].
  destruct dry_run; simpl; [lia|].
  destruct (events_get (remote w) calendar_id (event_id event)) as [r [e|full]];
    simpl; [lia|].
  destruct (events_update r calendar_id (event_id event) _) as [r' [e|ok]];
    simpl; lia.
Qed.

Lemma fold_count (calendar_id : string) (u : UpdateSpec) (dry_run : bool)
    (events : list Event) (st : World R * nat) :
  snd st <= snd (fold_left (update_event calendar_id u dry_run) events st)
         <= snd st + length events.
Proof.
  revert st. induction events as [|e events IH]; intros st; simpl; [lia|].
  specialize (IH (update_event calendar_id u dry_run st e)).
  pose proof (update_event_count calendar_id u dry_run st e). lia.
Qed.

End BulkUpdateFacts.

(** ** Properties of the specification *)

Import PyStr.

(** The three events of the search scenario, in start-time order. *)
Definition meeting_events : list Event :=
  [ sample_event "e1" "Team Meeting" None;
    sample_event "e2" "Lunch" None;
    sample_event "e3" "meeting recap" None ].

(** C1. Whenever the listing call returns, [find_events] returns exactly
    the listed events whose title contains the filter, both compared in
    lower case, in the order of the listing; an event without a title
    counts as titled [""], so it is kept only by an empty (or absent)
    filter.  Filtering ["Meeting"] over the titles "Team Meeting", "Lunch",
    "meeting recap" returns the first and the third event, in that order. *)
Theorem find_events_title_filter :
  (forall (R : Type) (S : CalendarService R) (w : World R) (utcnow : datetime)
          (calendar_id : string) (title_contains : option string)
          (start_date end_date : option datetime) (max_results : Z)
          (r : R) (reply : list_response),
      events_list (remote w)
        (listing_request utcnow calendar_id start_date end_date max_results)
      = (r, inr reply) ->
      let listed := default [] (items reply) in
      let needle := default "" title_contains in
      exists found,
        snd (find_events w utcnow calendar_id title_contains
                         start_date end_date max_results) = inr found
        /\ found = List.filter (title_matches needle) listed
        /\ sublist found listed
        /\ (forall e, In e found <->
                      In e listed
                      /\ Substring (lower needle)
                                   (lower (event_get e "summary" "")))
        /\ (forall e, In e listed -> event_fields e !! "summary" = None ->
                      (In e found <-> needle = "")))
  /\ snd (find_events (start (sample_calendar meeting_events)) 0%Z "primary"
                      (Some "Meeting") None None 100%Z)
     = inr [ sample_event "e1" "Team Meeting" None;
             sample_event "e3" "meeting recap" None ].
Proof.
  split; [|vm_compute; reflexivity].
  intros R S w utcnow calendar_id title_contains start_date end_date
         max_results r reply Hlist listed needle.
  exists (List.filter (title_matches needle) listed).
  assert (Hfound :
    snd (find_events w utcnow calendar_id title_contains
                     start_date end_date max_results)
    = inr (List.filter (title_matches needle) listed)).
  { unfold find_events. simpl. rewrite Hlist.
    fold listed. change (match items reply with Some l => l | None => [] end)
      with listed.
    destruct (truthy title_contains) eqn:Ht; simpl; [reflexivity|].
    assert (needle = "") as ->.
    { subst needle. destruct title_contains as [[|c s]|]; simpl in *; congruence. }
    rewrite filter_all; [reflexivity|]. intros e. apply title_matches_spec.
    now exists "", (lower (event_get e "summary" "")). }
  split; [exact Hfound|]. split; [reflexivity|].
  split; [apply filter_sublist|]. split.
  - intros e. rewrite filter_In, title_matches_spec. reflexivity.
  - intros e Hin Hnone. rewrite filter_In, title_matches_spec.
    unfold event_get. rewrite Hnone. simpl.
    rewrite substring_empty_iff, lower_empty_iff. tauto.
Qed.

Lemma find_events_title_filter_witness :
  exists found,
    snd (find_events (start (sample_calendar meeting_events)) 0%Z "primary"
                     (Some "meet") None None 100%Z) = inr found
    /\ length found = 2.
Proof.
  destruct (proj1 find_events_title_filter MemRemote mem_service
              (start (sample_calendar meeting_events)) 0%Z "primary"
              (Some "meet") None None 100%Z
              (sample_calendar meeting_events)
              (mkListResponse (Some meeting_events)))
    as (found & Hfound & Heq & _).
  - vm_compute. reflexivity.
  - exists found. split; [exact Hfound|]. rewrite Heq. vm_compute. reflexivity.
Defined.

(** The claim C2 read literally, "supplied" meaning "not None": it fails
    when the full description supplied is the empty string.  The [if] at
    line 148 is then false, the [elif] applies the append, and the mapping
    carries the appended description, not the full-description value. *)
Lemma empty_full_description_loses :
  let event := sample_event "e1" "Standup" (Some "Agenda") in
  let u := mkUpdateSpec None (Some "") None None (Some "Done") in
  prepare_updates event u !! "description"
  = Some ("Agenda" +:+ LF +:+ "Done")
  /\ prepare_updates event u !! "description" <> new_description u
  /\ prepare_updates event u <> prepare_updates event (without_append u).
Proof.
  vm_compute. split; [reflexivity | split; intros Heq; discriminate Heq].
Qed.

(** C2 (amended). When a non-empty full description is supplied together
    with an append text (any string, empty or not), every event's
    changed-field mapping carries the full description, and the whole run
    is the one obtained without the append text. *)
Theorem full_description_wins
    (R : Type) (S : CalendarService R) (w : World R) (events : list Event)
    (calendar_id : string) (u : UpdateSpec) (a : string) (dry_run : bool) :
  truthy (new_description u) = true ->
  append_to_description u = Some a ->
  (forall event, prepare_updates event u !! "description" = new_description u)
  /\ (forall event,
        prepare_updates event u = prepare_updates event (without_append u))
  /\ bulk_update w events calendar_id u dry_run
     = bulk_update w events calendar_id (without_append u) dry_run.
Proof.
  intros Hd Ha. split; [|split].
  - intros event. now rewrite prepare_updates_description, Hd.
  - intros event. now apply prepare_updates_without_append.
  - apply bulk_update_ext. intros e. now apply prepare_updates_without_append.
Qed.

Lemma full_description_wins_witness :
  prepare_updates (sample_event "e1" "Standup" (Some "old notes"))
    (mkUpdateSpec None (Some "Replaced") None None (Some "Appended"))
  !! "description" = Some "Replaced".
Proof.
  apply (full_description_wins MemRemote mem_service
           (start (sample_calendar [])) [] "primary"
           (mkUpdateSpec None (Some "Replaced") None None (Some "Appended"))
           "Appended" true);
    reflexivity.
Defined.

(** The claim C3 read literally, "supplied" meaning "not None": it fails
    when the append text supplied is the empty string.  The [elif] at line
    150 is then false: no description is written, the mapping is empty and
    the event is skipped, where the claim's formula gives "Agenda". *)
Lemma empty_append_writes_nothing :
  let event := sample_event "e1" "Standup" (Some "Agenda") in
  let u := mkUpdateSpec None None None None (Some "") in
  strip (event_get event "description" "" +:+ LF +:+ "") = "Agenda"
  /\ prepare_updates event u !! "description" = None
  /\ prepare_updates event u = ∅
  /\ bulk_update (start (sample_calendar [event])) [event] "primary" u false
     = (start (sample_calendar [event]), 0).
Proof. vm_compute. repeat split; reflexivity. Qed.

(** C3 (amended). With no full description supplied (or an empty one), a
    supplied non-empty append text [a] puts into the changed-field mapping
    the existing description [d] ([""] when absent), a line feed and [a],
    trimmed of surrounding whitespace.  Appending "Updated" to "Agenda: X"
    gives "Agenda: X", a line feed, "Updated", which a live run stores on
    the event. *)
Theorem append_to_description_result :
  (forall (event : Event) (title description location color : option string)
          (a : string),
      truthy description = false ->
      a <> "" ->
      let d := event_get event "description" "" in
      prepare_updates event
        (mkUpdateSpec title description location color (Some a))
      !! "description" = Some (strip (d +:+ LF +:+ a))
      /\ Trimmed (d +:+ LF +:+ a) (strip (d +:+ LF +:+ a)))
  /\ (let event := sample_event "e1" "Standup" (Some "Agenda: X") in
      let u := mkUpdateSpec None None None None (Some "Updated") in
      prepare_updates event u !! "description"
      = Some ("Agenda: X" +:+ LF +:+ "Updated")
      /\ (mem_events
            (remote (fst (bulk_update (start (sample_calendar [event]))
                                      [event] "primary" u false)))
          !! ("primary", "e1")) ≫= (fun e => event_fields e !! "description")
         = Some ("Agenda: X" +:+ LF +:+ "Updated")).
Proof.
  split.
  - intros event title description location color a Hd Ha d. split.
    + rewrite prepare_updates_description. simpl. rewrite Hd.
      destruct a as [|c a]; [congruence|]. reflexivity.
    + apply strip_trimmed.
  - split; vm_compute; reflexivity.
Qed.

Lemma append_to_description_result_witness :
  prepare_updates (mkEvent "e7" ∅)
    (mkUpdateSpec None (Some "") None None (Some "  note "))
  !! "description" = Some "note".
Proof.
  destruct (proj1 append_to_description_result (mkEvent "e7" ∅)
              None (Some "") None None "  note ") as [Hdesc _].
  - reflexivity.
  - discriminate.
  - rewrite Hdesc. vm_compute. reflexivity.
Defined.

(** C4. With no update field supplied, [bulk_update] skips every event:
    it returns 0 and leaves the world as it was (no remote call, no output,
    same remote state), for every list of events and either mode. *)
Theorem no_fields_updates_nothing
    (R : Type) (S : CalendarService R) (w : World R) (events : list Event)
    (calendar_id : string) (dry_run : bool) :
  bulk_update w events calendar_id no_updates dry_run = (w, 0).
Proof.
  unfold bulk_update. generalize (w, 0). intros st.
  induction events as [|e events IH]; simpl; [reflexivity|].
  now rewrite update_event_skip.
Qed.

(** C5. Running [bulk_update] in dry-run mode any number of times issues
    no remote call and leaves the remote state as it was; each run returns
    0 and all that changes is the output, which only grows. *)
Theorem dry_run_never_mutates
    (R : Type) (S : CalendarService R) (w : World R) (events : list Event)
    (calendar_id : string) (u : UpdateSpec) (n : nat) :
  let dry := fun w0 => bulk_update w0 events calendar_id u true in
  let w' := Nat.iter n (fun w0 => fst (dry w0)) w in
  remote w' = remote w
  /\ calls w' = calls w
  /\ (exists lines, stdout w' = stdout w ++ lines)
  /\ snd (dry w') = 0.
Proof.
  intros dry w'. subst w' dry.
  assert (Hiter :
    let w' := Nat.iter n
                (fun w0 => fst (bulk_update w0 events calendar_id u true)) w in
    remote w' = remote w /\ calls w' = calls w
    /\ exists lines, stdout w' = stdout w ++ lines).
  { induction n as [|n IH]; simpl.
    - repeat split. exists []. now rewrite app_nil_r.
    - destruct IH as (Hr & Hc & l1 & Ho).
      destruct (fold_dry_run calendar_id u events
                  (Nat.iter n (fun w0 =>
                     fst (bulk_update w0 events calendar_id u true)) w, 0))
        as (Hr' & Hc' & _ & l2 & Ho').
      unfold bulk_update at 1 3 5. simpl in *.
      rewrite Hr', Hc', Ho', Hr, Hc, Ho. repeat split.
      exists (l1 ++ l2). now rewrite app_assoc. }
  destruct Hiter as (Hr & Hc & Ho). repeat split; try assumption.
  apply (fold_dry_run calendar_id u events (_, 0)).
Qed.

(** C10. The count returned by [bulk_update] lies between 0 and the number
    of events passed in, and is 0 in dry-run mode. *)
Theorem updated_count_bounds
    (R : Type) (S : CalendarService R) (w : World R) (events : list Event)
    (calendar_id : string) (u : UpdateSpec) (dry_run : bool) :
  0 <= snd (bulk_update w events calendar_id u dry_run) <= length events
  /\ snd (bulk_update w events calendar_id u true) = 0.
Proof.
  split.
  - apply (fold_count calendar_id u dry_run events (w, 0)).
  - apply (fold_dry_run calendar_id u events (w, 0)).
Qed.

(** *** Live mode: reports and failures *)

Definition is_updated (o : output) : bool :=
  match o with
  | Updated _ => true
  | _ => false
  end.

(** The line [o] is the individual report of [event]: its success, or its
    failure with the error message. *)
Definition reports (event : Event) (o : output) : Prop :=
  o = Updated (event_title event)
  \/ exists e, o = Failed (event_title event) e.

Section LiveFacts.
Context {R : Type} `{CalendarService R}.

(** The live update of [event] from service state [r] raises [err]:
    either the read does, or the write of the merged resource does. *)
Definition live_update_fails (r : R) (calendar_id : string) (event : Event)
    (u : UpdateSpec) (err : exn) : Prop :=
  (exists r', events_get r calendar_id (event_id event) = (r', inl err))
  \/ (exists r' full r'',
        events_get r calendar_id (event_id event) = (r', inr full)
        /\ events_update r' calendar_id (event_id event)
             (dict_update full (prepare_updates event u)) = (r'', inl err)).

Lemma update_event_live (calendar_id : string) (u : UpdateSpec)
    (st : World R * nat) (event : Event) :
  prepare_updates event u <> ∅ ->
  exists line,
    reports event line
    /\ stdout (fst (update_event calendar_id u false st event))
       = stdout (fst st) ++ [line]
    /\ snd (update_event calendar_id u false st event)
       = snd st + (if is_updated line then 1 else 0).
Proof.
  intros Hne. unfold update_event. destruct st as [w n].
  rewrite decide_False by assumption.
  destruct (events_get (remote w) calendar_id (event_id event))
    as [r [e|full]]; simpl.
  - exists (Failed (event_title event) e).
    split; [right; eauto | split; [reflexivity | simpl; lia]].
  - destruct (events_update r calendar_id (event_id event) _)
      as [r' [e|ok]]; simpl.
    + exists (Failed (event_title event) e).
      split; [right; eauto | split; [reflexivity | simpl; lia]].
    + exists (Updated (event_title event)).
      split; [now left | split; [reflexivity | simpl; lia]].
Qed.

Lemma update_event_live_failure (calendar_id : string) (u : UpdateSpec)
    (st : World R * nat) (event : Event) (err : exn) :
  prepare_updates event u <> ∅ ->
  live_update_fails (remote (fst st)) calendar_id event u err ->
  exists w',
    update_event calendar_id u false st event = (w', snd st)
    /\ stdout w' = stdout (fst st) ++ [Failed (event_title event) err].
Proof.
  intros Hne Hfail. unfold update_event. destruct st as [w n]. simpl in *.
  rewrite decide_False by assumption.
  destruct Hfail as [[r' Hget] | (r' & full & r'' & Hget & Hput)];
    rewrite Hget; simpl.
  - eexists. split; reflexivity.
  - rewrite Hput. eexists. split; reflexivity.
Qed.

Lemma fold_live_reports (calendar_id : string) (u : UpdateSpec)
    (events : list Event) (st : World R * nat) :
  let st' := fold_left (update_event calendar_id u false) events st in
  exists lines,
    stdout (fst st') = stdout (fst st) ++ lines
    /\ Forall2 reports
         (filter (fun e => prepare_updates e u <> ∅) events) lines
    /\ snd st' = snd st + length (List.filter is_updated lines).
Proof.
  revert st. induction events as [|e events IH]; intros st; simpl.
  - exists []. rewrite app_nil_r. simpl. repeat split; [constructor | lia].
  - destruct (IH (update_event calendar_id u false st e))
      as (lines & Ho & Hrep & Hn).
    destruct (decide (prepare_updates e u = ∅)) as [He|He].
    + rewrite update_event_skip in Ho, Hn |- * by assumption.
      exists lines. rewrite filter_cons_False by naive_solver.
      repeat split; assumption.
    + destruct (update_event_live calendar_id u st e He)
        as (line & Hline & Ho1 & Hn1).
      exists (line :: lines). rewrite filter_cons_True by assumption.
      rewrite Ho, Ho1, Hn, Hn1, <- app_assoc. simpl.
      repeat split; [now constructor|].
      destruct (is_updated line); simpl; lia.
Qed.

End LiveFacts.

(** The calendar of the search scenario, on which every update of the
    event ["e2"] is refused. *)
Definition refusing_e2 : MemRemote :=
  let m := sample_calendar meeting_events in
  mkMem (mem_events m) (mem_agenda m) ∅ {["e2" := "Forbidden"]}.

(** C6. In live mode every event that has something to change gets its own
    report line, a success or a failure with its message, and the count is
    the number of successes.  A failing read or write of one event is
    caught: its failure is reported, the count stays, and the loop goes on
    with the events after it.  On three events of which the second is
    refused by the service, the count is 2 and the reports are
    success, failure, success. *)
Theorem live_failures_are_isolated :
  (forall (R : Type) (S : CalendarService R) (w : World R)
          (events : list Event) (calendar_id : string) (u : UpdateSpec),
      let st' := bulk_update w events calendar_id u false in
      exists lines,
        stdout (fst st') = stdout w ++ lines
        /\ Forall2 reports
             (filter (fun e => prepare_updates e u <> ∅) events) lines
        /\ snd st' = length (List.filter is_updated lines))
  /\ (forall (R : Type) (S : CalendarService R) (w : World R)
             (pre post : list Event) (event : Event) (calendar_id : string)
             (u : UpdateSpec) (err : exn),
        let st := bulk_update w pre calendar_id u false in
        prepare_updates event u <> ∅ ->
        live_update_fails (remote (fst st)) calendar_id event u err ->
        exists w',
          stdout w' = stdout (fst st) ++ [Failed (event_title event) err]
          /\ bulk_update w (pre ++ event :: post) calendar_id u false
             = fold_left (update_event calendar_id u false) post (w', snd st))
  /\ (let st' := bulk_update (start refusing_e2) meeting_events "primary"
                   (mkUpdateSpec None None (Some "Room 1") None None) false in
      snd st' = 2
      /\ stdout (fst st')
         = [Updated "Team Meeting"; Failed "Lunch" "Forbidden";
            Updated "meeting recap"]).
Proof.
  split; [|split].
  - intros R S w events calendar_id u st'.
    destruct (fold_live_reports calendar_id u events (w, 0))
      as (lines & Ho & Hrep & Hn).
    exists lines. repeat split; assumption.
  - intros R S w pre post event calendar_id u err st Hne Hfail.
    destruct (update_event_live_failure calendar_id u st event err Hne Hfail)
      as (w' & Hstep & Hout).
    exists w'. split; [exact Hout|].
    rewrite bulk_update_app. simpl. fold st. now rewrite Hstep.
  - vm_compute. split; reflexivity.
Qed.

Lemma live_failures_are_isolated_witness :
  let u := mkUpdateSpec None None (Some "Room 1") None None in
  exists w',
    stdout w' = [Updated "Team Meeting"; Failed "Lunch" "Forbidden"]
    /\ bulk_update (start refusing_e2) meeting_events "primary" u false
       = fold_left (update_event "primary" u false)
           [sample_event "e3" "meeting recap" None] (w', 1).
Proof.
  intros u.
  pose (st := bulk_update (start refusing_e2)
                [sample_event "e1" "Team Meeting" None] "primary" u false).
  destruct (proj1 (proj2 live_failures_are_isolated) MemRemote mem_service
              (start refusing_e2)
              [sample_event "e1" "Team Meeting" None]
              [sample_event "e3" "meeting recap" None]
              (sample_event "e2" "Lunch" None) "primary" u "Forbidden")
    as (w' & Hout & Hrun).
  - vm_compute. discriminate.
  - right.
    exists (remote (fst st)), (sample_event "e2" "Lunch" None),
           (remote (fst st)).
    split; vm_compute; reflexivity.
  - exists w'. split; [exact Hout | exact Hrun].
Defined.

(** *** Read, merge, write on the in-memory service *)

Lemma dict_update_idempotent (full : Event) (updates : gmap string string) :
  dict_update (dict_update full updates) updates = dict_update full updates.
Proof.
  unfold dict_update. simpl. f_equal.
  now rewrite (assoc_L (∪)), (idemp_L (∪)).
Qed.

(** What one live pass over a single event does to the in-memory store. *)
Lemma mem_live_once (w : World MemRemote) (event : Event)
    (calendar_id : string) (u : UpdateSpec) :
  let m := remote w in
  let key := (calendar_id, event_id event) in
  remote (fst (bulk_update w [event] calendar_id u false))
  = match mem_events m !! key with
    | Some stored =>
        if decide (prepare_updates event u = ∅) then m
        else match mem_get_faults m !! event_id event,
                   mem_update_faults m !! event_id event with
             | None, None =>
                 mkMem (<[key := dict_update stored (prepare_updates event u)]>
                          (mem_events m))
                       (mem_agenda m) (mem_get_faults m) (mem_update_faults m)
             | _, _ => m
             end
    | None => m
    end.
Proof.
  intros m key. subst m key. unfold bulk_update, update_event. simpl.
  destruct (decide (prepare_updates event u = ∅)); simpl;
    [now destruct (mem_events (remote w) !! _)|].
  unfold mem_get.
  destruct (mem_get_faults (remote w) !! event_id event) eqn:Hg; simpl;
    [now destruct (mem_events (remote w) !! _)|].
  destruct (mem_events (remote w) !! (calendar_id, event_id event))
    as [stored|] eqn:Hs; simpl; [|reflexivity].
  unfold mem_update. rewrite Hs.
  now destruct (mem_update_faults (remote w) !! event_id event).
Qed.

(** Without append text the changed-field mapping is the same for every
    event: only the append branch reads the event. *)
Lemma prepare_updates_no_append (event event' : Event) (u : UpdateSpec) :
  truthy (append_to_description u) = false ->
  prepare_updates event u = prepare_updates event' u.
Proof. intros Ha. unfold prepare_updates. now rewrite Ha. Qed.

(** C7. On the in-memory service, a second live application of the same
    UpdateSpec without append text to the same event (as first passed, or
    as read again since) leaves the stored events exactly as the first
    application left them; the first application, when the event is stored
    and no call is refused, stores the event with the changed fields
    overlaid. *)
Theorem direct_updates_are_idempotent
    (w : World MemRemote) (event event' : Event) (calendar_id : string)
    (u : UpdateSpec) :
  truthy (append_to_description u) = false ->
  event_id event' = event_id event ->
  let once := fst (bulk_update w [event] calendar_id u false) in
  let twice := fst (bulk_update once [event'] calendar_id u false) in
  remote twice = remote once
  /\ (forall stored,
        mem_events (remote w) !! (calendar_id, event_id event) = Some stored ->
        mem_get_faults (remote w) !! event_id event = None ->
        mem_update_faults (remote w) !! event_id event = None ->
        mem_events (remote once) !! (calendar_id, event_id event)
        = Some (dict_update stored (prepare_updates event u))).
Proof.
  intros Ha Hid once twice. subst twice once. split.
  - rewrite (mem_live_once (fst (bulk_update w [event] calendar_id u false))).
    simpl. rewrite Hid, (prepare_updates_no_append event' event u Ha).
    rewrite (mem_live_once w). simpl.
    destruct (mem_events (remote w) !! (calendar_id, event_id event))
      as [stored|] eqn:Hs; [|now rewrite Hs].
    destruct (decide (prepare_updates event u = ∅)) as [He|He];
      [now rewrite Hs|].
    destruct (mem_get_faults (remote w) !! event_id event) eqn:Hg;
      [now rewrite Hs, Hg|].
    destruct (mem_update_faults (remote w) !! event_id event) eqn:Hu;
      [now rewrite Hs, Hg, Hu|].
    simpl. rewrite lookup_insert_eq, Hg, Hu.
    now rewrite dict_update_idempotent, insert_insert_eq.
  - intros stored Hs Hg Hu. rewrite (mem_live_once w). simpl.
    rewrite Hs, Hg, Hu.
    destruct (decide (prepare_updates event u = ∅)) as [He|He]; simpl.
    + rewrite Hs, He. f_equal. unfold dict_update. destruct stored. simpl.
      now rewrite (left_id_L ∅ (∪)).
    + now rewrite lookup_insert_eq.
Qed.

Lemma direct_updates_are_idempotent_witness :
  let event := sample_event "e1" "Team Meeting" (Some "Agenda: X") in
  let event' := sample_event "e1" "Weekly sync" (Some "Agenda: X") in
  let u := mkUpdateSpec (Some "Weekly sync") None (Some "Room 1") None None in
  let once := fst (bulk_update (start (sample_calendar [event])) [event]
                               "primary" u false) in
  remote (fst (bulk_update once [event'] "primary" u false)) = remote once.
Proof.
  intros event event' u once.
  apply (direct_updates_are_idempotent (start (sample_calendar [event]))
           event event' "primary" u); reflexivity.
Defined.

(** *** Authentication *)

(** A cached credential that is currently valid. *)
Definition cached_valid (env : AuthEnv) : Prop :=
  exists c, token_file env = Some c /\ valid c = true.

(** A cached credential that is expired and carries a refresh token. *)
Definition cached_refreshable (env : AuthEnv) : Prop :=
  exists c, token_file env = Some c /\ expired c = true
            /\ truthy (refresh_token c) = true.

(** C8. [_authenticate] fails with the missing-client-secret error exactly
    when there is neither a valid cached credential nor an expired one with
    a refresh token, and the client-secret file is absent; with a usable
    cached credential it never fails that way. *)
Theorem missing_client_secret_iff (credentials_path : string) (env : AuthEnv) :
  (snd (_authenticate credentials_path env)
   = MissingClientSecret credentials_path
   <-> ~ cached_valid env /\ ~ cached_refreshable env
       /\ client_secret_exists env = false)
  /\ ((exists p, snd (_authenticate credentials_path env)
                 = MissingClientSecret p)
      <-> snd (_authenticate credentials_path env)
          = MissingClientSecret credentials_path)
  /\ (cached_valid env \/ cached_refreshable env ->
      forall p, snd (_authenticate credentials_path env)
                <> MissingClientSecret p).
Proof.
  assert (Hgrant : forall p,
    (if negb (client_secret_exists env)
     then MissingClientSecret credentials_path
     else raised (run_local_server env)) = MissingClientSecret p
    <-> p = credentials_path /\ client_secret_exists env = false).
  { intros p. destruct (client_secret_exists env); simpl.
    - split; [|intros [_ ?]; discriminate].
      destruct (run_local_server env); discriminate.
    - split; [intros [= ->]; now split | intros [-> _]; reflexivity]. }
  assert (Hkeep : forall (o : auth_result) p,
    snd (match o with
         | Session c' => (save_token env c', Session c')
         | failure => (env, failure)
         end) = MissingClientSecret p <-> o = MissingClientSecret p).
  { intros [q|e|c] p; simpl; split; congruence. }
  assert (Hmain :
    forall p, snd (_authenticate credentials_path env) = MissingClientSecret p
    <-> p = credentials_path /\ ~ cached_valid env /\ ~ cached_refreshable env
        /\ client_secret_exists env = false).
  { intros p. unfold _authenticate, cached_valid, cached_refreshable.
    destruct (token_file env) as [c|] eqn:Hc.
    - destruct (valid c) eqn:Hv; simpl.
      + split; [discriminate|]. intros (_ & Hnv & _). exfalso. eauto.
      + rewrite Hkeep.
        destruct (expired c && truthy (refresh_token c)) eqn:Hr.
        * apply andb_true_iff in Hr as [He Hr]. split.
          -- destruct (refresh env c); discriminate.
          -- intros (_ & _ & Hnr & _). exfalso. eauto.
        * rewrite Hgrant. split.
          -- intros [-> Hs]. repeat split; try assumption.
             ++ intros (c' & [= <-] & Hv'). congruence.
             ++ intros (c' & [= <-] & He & Ht).
                rewrite He, Ht in Hr. discriminate.
          -- intros (-> & _ & _ & Hs). now split.
    - rewrite Hkeep, Hgrant. split.
      + intros [-> Hs]. repeat split; try assumption;
          intros (c' & Hc' & _); discriminate.
      + intros (-> & _ & _ & Hs). now split. }
  split; [|split].
  - rewrite Hmain. tauto.
  - split.
    + intros [p Hp]. pose proof Hp as Hp'. apply Hmain in Hp' as [-> _].
      exact Hp.
    + eauto.
  - intros Husable p Hp. apply Hmain in Hp. tauto.
Qed.

Lemma missing_client_secret_iff_witness :
  let env := mkAuthEnv (Some (mkCredentials false true (Some "1//refresh")))
                       false (fun c => inr (mkCredentials true false
                                              (refresh_token c)))
                       (inl "access_denied") in
  snd (_authenticate "credentials.json" env)
  <> MissingClientSecret "credentials.json".
Proof.
  intros env.
  apply (proj2 (proj2 (missing_client_secret_iff "credentials.json" env))).
  right. exists (mkCredentials false true (Some "1//refresh")).
  repeat split; reflexivity.
Defined.

(** *** Empty-string arguments *)

Lemma lookup_if_insert (b : bool) (k0 v : string) (m : gmap string string)
    (k x : string) :
  (if b then <[k0 := v]> m else m) !! k = Some x ->
  (b = true /\ k = k0 /\ x = v) \/ m !! k = Some x.
Proof.
  destruct b; [|now right].
  rewrite lookup_insert_Some. intros [[-> ->] | [_ Hm]]; [now left | now right].
Qed.

(** An empty string in the changed-field mapping can only be a description
    produced by the append branch. *)
Lemma prepare_updates_empty_value (event : Event) (u : UpdateSpec) (k : string) :
  prepare_updates event u !! k = Some "" ->
  k = "description"
  /\ truthy (new_description u) = false
  /\ truthy (append_to_description u) = true.
Proof.
  assert (Hnot : forall o, truthy o = true -> "" = default "" o -> False).
  { intros o Ht Hv. now apply (truthy_nonempty o Ht). }
  assert (Hrest : forall (b : bool) (v : string),
    ((if b then <["summary" := v]> ∅ else ∅) : gmap string string) !! k
    = Some "" -> b = true /\ "" = v).
  { intros b v Hk. apply lookup_if_insert in Hk as [(Hb & _ & Hv) | Hk];
      [now split | now rewrite lookup_empty in Hk]. }
  unfold prepare_updates. intros Hk.
  apply lookup_if_insert in Hk as [(Ht & _ & Hv) | Hk];
    [destruct (Hnot _ Ht Hv)|].
  apply lookup_if_insert in Hk as [(Ht & _ & Hv) | Hk];
    [destruct (Hnot _ Ht Hv)|].
  destruct (truthy (new_description u)) eqn:Hd.
  - apply lookup_insert_Some in Hk as [[_ Hv] | [_ Hk]].
    + symmetry in Hv. destruct (Hnot _ Hd Hv).
    + apply Hrest in Hk as [Ht Hv]. destruct (Hnot _ Ht Hv).
  - destruct (truthy (append_to_description u)) eqn:Ha.
    + apply lookup_insert_Some in Hk as [[<- _] | [_ Hk]]; [easy|].
      apply Hrest in Hk as [Ht Hv]. destruct (Hnot _ Ht Hv).
    + apply Hrest in Hk as [Ht Hv]. destruct (Hnot _ Ht Hv).
Qed.

(** Which keys the changed-field mapping holds. *)
Lemma prepare_updates_keys (event : Event) (u : UpdateSpec) :
  (prepare_updates event u !! "summary"
   = if truthy (new_title u) then new_title u else None)
  /\ (prepare_updates event u !! "location"
      = if truthy (new_location u) then new_location u else None)
  /\ (prepare_updates event u !! "colorId"
      = if truthy (new_color_id u) then new_color_id u else None).
Proof.
  unfold prepare_updates.
  destruct (truthy (new_title u)) eqn:Ht, (truthy (new_description u)),
    (truthy (append_to_description u)), (truthy (new_location u)) eqn:Hl,
    (truthy (new_color_id u)) eqn:Hc;
    simplify_map_eq; repeat split;
    solve [reflexivity | symmetry; now apply truthy_default].
Qed.

(** The claim read literally: no value of the changed-field mapping is
    ever the empty string.  It fails: appending a blank text to an event
    without description strips down to [""], which a live run stores. *)
Lemma empty_description_through_append :
  let event := sample_event "e1" "Standup" None in
  let u := mkUpdateSpec None None None None (Some " ") in
  truthy (append_to_description u) = true
  /\ prepare_updates event u !! "description" = Some ""
  /\ (mem_events
        (remote (fst (bulk_update (start (sample_calendar [event]))
                                  [event] "primary" u false)))
      !! ("primary", "e1")) ≫= (fun e => event_fields e !! "description")
     = Some "".
Proof. vm_compute. repeat split; reflexivity. Qed.

(** C9 (amended). An argument given as [""] behaves exactly as an omitted
    one, for each of the five arguments: the runs coincide and the field is
    not put into the changed-field mapping.  Hence no direct replacement
    (title, full description, location, colour) sets a field to [""]: an
    empty value in the mapping is always a description coming from the
    append branch.  With [new_description = ""] and an append text, the
    append is applied. *)
Theorem empty_string_is_omitted :
  (forall (R : Type) (S : CalendarService R) (w : World R)
          (events : list Event) (calendar_id : string) (dry_run : bool)
          (t d l c a : option string),
      let run := fun u => bulk_update w events calendar_id u dry_run in
      run (mkUpdateSpec (Some "") d l c a) = run (mkUpdateSpec None d l c a)
      /\ run (mkUpdateSpec t (Some "") l c a) = run (mkUpdateSpec t None l c a)
      /\ run (mkUpdateSpec t d (Some "") c a) = run (mkUpdateSpec t d None c a)
      /\ run (mkUpdateSpec t d l (Some "") a) = run (mkUpdateSpec t d l None a)
      /\ run (mkUpdateSpec t d l c (Some "")) = run (mkUpdateSpec t d l c None))
  /\ (forall (event : Event) (t d l c a : option string),
        prepare_updates event (mkUpdateSpec (Some "") d l c a) !! "summary"
        = None
        /\ prepare_updates event (mkUpdateSpec t d (Some "") c a) !! "location"
           = None
        /\ prepare_updates event (mkUpdateSpec t d l (Some "") a) !! "colorId"
           = None
        /\ prepare_updates event (mkUpdateSpec t (Some "") l c (Some ""))
             !! "description" = None)
  /\ (forall (event : Event) (u : UpdateSpec) (k : string),
        prepare_updates event u !! k = Some "" ->
        k = "description"
        /\ truthy (new_description u) = false
        /\ truthy (append_to_description u) = true)
  /\ (forall (event : Event) (t l c : option string) (a : string),
        a <> "" ->
        prepare_updates event (mkUpdateSpec t (Some "") l c (Some a))
          !! "description"
        = Some (strip (event_get event "description" "" +:+ LF +:+ a))).
Proof.
  split; [|split; [|split]].
  - intros R S w events calendar_id dry_run t d l c a run. subst run.
    repeat split; apply bulk_update_ext; intros e; reflexivity.
  - intros event t d l c a.
    repeat split;
      try (eapply eq_trans; [apply prepare_updates_keys | reflexivity]).
    now rewrite prepare_updates_description.
  - apply prepare_updates_empty_value.
  - intros event t l c a Ha. rewrite prepare_updates_description. simpl.
    destruct a as [|x a]; [congruence | reflexivity].
Qed.

Lemma empty_string_is_omitted_witness :
  prepare_updates (sample_event "e1" "Standup" (Some "Agenda"))
    (mkUpdateSpec None (Some "") None None (Some "Done"))
  !! "description" = Some (strip ("Agenda" +:+ LF +:+ "Done")).
Proof.
  apply (proj2 (proj2 (proj2 empty_string_is_omitted))
           (sample_event "e1" "Standup" (Some "Agenda")) None None None "Done").
  discriminate.
Defined.

(** * Further properties of the code *)

(** ** More on Python strings *)

Lemma app_assoc_str (a b c : string) : (a +:+ b) +:+ c = a +:+ (b +:+ c).
Proof.
  induction a as [|x a IH]; [reflexivity|].
  now rewrite !app_cons_str, IH.
Qed.

Lemma lower_char_idem (c : ascii) : lower_char (lower_char c) = lower_char c.
Proof. destruct c as [[] [] [] [] [] [] [] []]; reflexivity. Qed.

Lemma lower_idem (s : string) : lower (lower s) = lower s.
Proof.
  induction s as [|c s IH]; simpl; [reflexivity|].
  now rewrite lower_char_idem, IH.
Qed.

Lemma lower_app (s t : string) : lower (s +:+ t) = lower s +:+ lower t.
Proof.
  induction s as [|c s IH]; [reflexivity|].
  rewrite app_cons_str. simpl. now rewrite IH, app_cons_str.
Qed.

Lemma Substring_trans (a b c : string) :
  Substring a b -> Substring b c -> Substring a c.
Proof.
  intros (p1 & q1 & ->) (p2 & q2 & ->).
  exists (p2 +:+ p1), (q1 +:+ q2). now rewrite !app_assoc_str.
Qed.

Lemma Substring_lower (a b : string) :
  Substring a b -> Substring (lower a) (lower b).
Proof.
  intros (p & q & ->). exists (lower p), (lower q). now rewrite !lower_app.
Qed.

Lemma all_space_app (s t : string) :
  all_space (s +:+ t) = all_space s && all_space t.
Proof.
  induction s as [|c s IH]; [reflexivity|].
  rewrite app_cons_str. simpl. now rewrite IH, andb_assoc.
Qed.

Lemma lstrip_blank_prefix (l t : string) :
  all_space l = true -> lstrip (l +:+ t) = lstrip t.
Proof.
  induction l as [|c l IH]; [reflexivity|].
  intros Hl. simpl in Hl. apply andb_true_iff in Hl as [Hc Hl].
  rewrite app_cons_str. cbn [lstrip]. rewrite Hc. now apply IH.
Qed.

Lemma lstrip_fixed (s : string) : starts_with_space s = false -> lstrip s = s.
Proof. destruct s as [|c s]; simpl; [reflexivity|]. now intros ->. Qed.

Lemma rstrip_fixed (s : string) : ends_with_space s = false -> rstrip s = s.
Proof.
  induction s as [|c s IH]; [reflexivity|].
  simpl. destruct s as [|d s].
  - simpl. now intros ->.
  - intros Hs. now rewrite (IH Hs).
Qed.

Lemma starts_with_space_app (s t : string) :
  s <> "" -> starts_with_space (s +:+ t) = starts_with_space s.
Proof. destruct s as [|c s]; [congruence | reflexivity]. Qed.

Lemma ends_with_space_app (s t : string) :
  t <> "" -> ends_with_space (s +:+ t) = ends_with_space t.
Proof.
  intros Ht. induction s as [|c s IH]; [reflexivity|].
  rewrite app_cons_str. simpl. rewrite IH.
  destruct (s +:+ t) eqn:Hst; [|reflexivity].
  destruct s; [|discriminate]. rewrite app_nil_str in Hst. congruence.
Qed.

(** [strip] does nothing to a string that is already trimmed, so trimming
    twice is trimming once. *)
Lemma strip_fixed (s : string) :
  starts_with_space s = false -> ends_with_space s = false -> strip s = s.
Proof.
  intros Hh Hl. unfold strip. rewrite (lstrip_fixed s Hh). now apply rstrip_fixed.
Qed.

Lemma filter_sublist_impl {A} (p q : A -> bool) (l : list A) :
  (forall x, p x = true -> q x = true) ->
  sublist (List.filter p l) (List.filter q l).
Proof.
  intros Hpq. induction l as [|x l IH]; simpl; [constructor|].
  destruct (p x) eqn:Hp.
  - rewrite (Hpq x Hp). now constructor.
  - destruct (q x); [now constructor | assumption].
Qed.

(** ** More on [find_events] *)

(** What [find_events] returns, read off the reply of its listing call. *)
Lemma find_events_returns
    (R : Type) (S : CalendarService R) (w : World R) (utcnow : datetime)
    (calendar_id : string) (title_contains : option string)
    (start_date end_date : option datetime) (max_results : Z) :
  snd (find_events w utcnow calendar_id title_contains
                   start_date end_date max_results)
  = match snd (events_list (remote w)
                 (listing_request utcnow calendar_id start_date end_date
                                  max_results)) with
    | inl e => inl e
    | inr reply =>
        inr (List.filter (title_matches (default "" title_contains))
                         (default [] (items reply)))
    end.
Proof.
  unfold find_events. simpl.
  destruct (events_list (remote w) _) as [r [e|reply]]; simpl; [reflexivity|].
  change (match items reply with Some l => l | None => [] end)
    with (default [] (items reply)).
  destruct (truthy title_contains) eqn:Ht; simpl; [reflexivity|].
  assert (default "" title_contains = "") as ->.
  { destruct title_contains as [[|c s]|]; simpl in *; congruence. }
  rewrite filter_all; [reflexivity|]. intros e. apply title_matches_spec.
  now exists "", (lower (event_get e "summary" "")).
Qed.

(** The calls, the service state and the output [find_events] leaves:
    one listing call, and the search line followed, when the listing
    returns, by the line that counts the events returned. *)
Lemma find_events_effects
    (R : Type) (S : CalendarService R) (w : World R) (utcnow : datetime)
    (calendar_id : string) (title_contains : option string)
    (start_date end_date : option datetime) (max_results : Z) :
  let req := listing_request utcnow calendar_id start_date end_date
                             max_results in
  let out := find_events w utcnow calendar_id title_contains
                         start_date end_date max_results in
  calls (fst out) = calls w ++ [ListCall req]
  /\ remote (fst out) = fst (events_list (remote w) req)
  /\ match snd (events_list (remote w) req) with
     | inl e =>
         snd out = inl e
         /\ stdout (fst out)
            = stdout w ++ [Searching (timeMin req) (timeMax req)]
     | inr _ =>
         exists found,
           snd out = inr found
           /\ stdout (fst out)
              = stdout w ++ [Searching (timeMin req) (timeMax req);
                             if truthy title_contains
                             then FoundMatching (length found)
                                                (default "" title_contains)
                             else Found (length found)]
     end.
Proof.
  intros req out. subst out req. unfold find_events. simpl.
  destruct (events_list (remote w) _) as [r [e|reply]]; simpl.
  - repeat split; reflexivity.
  - destruct (truthy title_contains); simpl;
      (split; [reflexivity | split; [reflexivity|]]);
      eexists; (split; [reflexivity|]); now rewrite <- app_assoc.
Qed.

(** X2. A listing reply without [items] is an empty result, with or
    without a title filter. *)
Theorem find_events_missing_items
    (R : Type) (S : CalendarService R) (w : World R) (utcnow : datetime)
    (calendar_id : string) (title_contains : option string)
    (start_date end_date : option datetime) (max_results : Z) (r : R) :
  events_list (remote w)
    (listing_request utcnow calendar_id start_date end_date max_results)
  = (r, inr (mkListResponse None)) ->
  snd (find_events w utcnow calendar_id title_contains
                   start_date end_date max_results) = inr [].
Proof. intros Hlist. rewrite find_events_returns, Hlist. reflexivity. Qed.

(** A service that knows no event: listings come back without [items]. *)
Definition blank_service : CalendarService unit := {|
  events_list := fun r _ => (r, inr (mkListResponse None));
  events_get := fun r _ _ => (r, inl "Not Found");
  events_update := fun r _ _ _ => (r, inl "Not Found")
|}.

Lemma find_events_missing_items_witness :
  snd (@find_events unit blank_service (start tt) 0%Z "primary"
         (Some "Meeting") None None 100%Z) = inr [].
Proof.
  apply (find_events_missing_items unit blank_service (start tt) 0%Z "primary"
           (Some "Meeting") None None 100%Z tt).
  reflexivity.
Defined.

(** X3. The case of the filter does not matter: a filter and its
    lower-case form return the same events and leave the same service
    state and the same calls behind. *)
Theorem find_events_filter_case
    (R : Type) (S : CalendarService R) (w : World R) (utcnow : datetime)
    (calendar_id : string) (needle : string)
    (start_date end_date : option datetime) (max_results : Z) :
  let given := find_events w utcnow calendar_id (Some needle)
                           start_date end_date max_results in
  let lowered := find_events w utcnow calendar_id (Some (lower needle))
                             start_date end_date max_results in
  snd given = snd lowered
  /\ remote (fst given) = remote (fst lowered)
  /\ calls (fst given) = calls (fst lowered).
Proof.
  intros given lowered. subst given lowered. split; [|split].
  - rewrite !find_events_returns. simpl.
    destruct (snd (events_list (remote w) _)) as [e|reply]; [reflexivity|].
    f_equal. apply filter_ext. intros e. unfold title_matches.
    now rewrite lower_idem.
  - pose proof (find_events_effects R S w utcnow calendar_id
                  (Some needle) start_date end_date max_results) as (_ & -> & _).
    pose proof (find_events_effects R S w utcnow calendar_id
                  (Some (lower needle)) start_date end_date max_results)
      as (_ & -> & _).
    reflexivity.
  - pose proof (find_events_effects R S w utcnow calendar_id
                  (Some needle) start_date end_date max_results) as (-> & _).
    pose proof (find_events_effects R S w utcnow calendar_id
                  (Some (lower needle)) start_date end_date max_results)
      as (-> & _).
    reflexivity.
Qed.

(** X4. A longer filter narrows the search: when the filter [broad]
    occurs in the filter [narrow] (case ignored), what [narrow] finds is a
    sub-list of what [broad] finds on the same calendar, and a listing
    error is the same for both. *)
Theorem find_events_narrower_filter
    (R : Type) (S : CalendarService R) (w : World R) (utcnow : datetime)
    (calendar_id : string) (broad narrow : string)
    (start_date end_date : option datetime) (max_results : Z) :
  Substring (lower broad) (lower narrow) ->
  match snd (find_events w utcnow calendar_id (Some broad)
                         start_date end_date max_results),
        snd (find_events w utcnow calendar_id (Some narrow)
                         start_date end_date max_results) with
  | inr found_broad, inr found_narrow => sublist found_narrow found_broad
  | inl e, inl e' => e = e'
  | _, _ => False
  end.
Proof.
  intros Hsub. rewrite !find_events_returns. simpl.
  destruct (snd (events_list (remote w) _)) as [e|reply]; [reflexivity|].
  apply filter_sublist_impl. intros e. rewrite !title_matches_spec.
  intros Hn. exact (Substring_trans _ _ _ Hsub Hn).
Qed.

Lemma find_events_narrower_filter_witness :
  match snd (find_events (start (sample_calendar meeting_events)) 0%Z
               "primary" (Some "MEET") None None 100%Z),
        snd (find_events (start (sample_calendar meeting_events)) 0%Z
               "primary" (Some "Team Meeting") None None 100%Z) with
  | inr found_broad, inr found_narrow => sublist found_narrow found_broad
  | inl e, inl e' => e = e'
  | _, _ => False
  end.
Proof.
  apply (find_events_narrower_filter MemRemote mem_service
           (start (sample_calendar meeting_events)) 0%Z "primary"
           "MEET" "Team Meeting" None None 100%Z).
  exists "team ", "ing". reflexivity.
Defined.

(** ** More on [bulk_update] *)

Section MoreBulkUpdate.
Context {R : Type} `{CalendarService R}.

(** The counter the loop starts from only shifts the result. *)
Lemma update_event_count_shift (calendar_id : string) (u : UpdateSpec)
    (dry_run : bool) (w : World R) (n : nat) (event : Event) :
  update_event calendar_id u dry_run (w, n) event
  = (fst (update_event calendar_id u dry_run (w, 0) event),
     n + snd (update_event calendar_id u dry_run (w, 0) event)).
Proof.
  unfold update_event.
  destruct (decide (prepare_updates event u = ∅)); simpl; [f_equal; lia|].
  destruct dry_run; simpl; [f_equal; lia|].
  destruct (events_get (remote w) calendar_id (event_id event))
    as [r [e|full]]; simpl; [f_equal; lia|].
  destruct (events_update r calendar_id (event_id event) _) as [r' [e|ok]];
    simpl; f_equal; lia.
Qed.

Lemma fold_count_shift (calendar_id : string) (u : UpdateSpec)
    (dry_run : bool) (events : list Event) (w : World R) (n : nat) :
  fold_left (update_event calendar_id u dry_run) events (w, n)
  = (fst (bulk_update w events calendar_id u dry_run),
     n + snd (bulk_update w events calendar_id u dry_run)).
Proof.
  unfold bulk_update. revert w n.
  induction events as [|e events IH]; intros w n; cbn [fold_left];
    [simpl; f_equal; lia|].
  rewrite (update_event_count_shift calendar_id u dry_run w n e).
  destruct (update_event calendar_id u dry_run (w, 0) e) as [w1 k].
  cbn [fst snd]. rewrite (IH w1 (n + k)), (IH w1 k). cbn [fst snd].
  f_equal. lia.
Qed.

Lemma prepare_updates_empty_iff (event : Event) (u : UpdateSpec) :
  prepare_updates event u = ∅
  <-> truthy (new_title u) = false
      /\ truthy (new_description u) = false
      /\ truthy (new_location u) = false
      /\ truthy (new_color_id u) = false
      /\ truthy (append_to_description u) = false.
Proof.
  split.
  - intros He.
    destruct (prepare_updates_keys event u) as (Ht & Hl & Hc).
    pose proof (prepare_updates_description event u) as Hd.
    rewrite He, lookup_empty in Ht, Hl, Hc, Hd.
    destruct (truthy (new_title u)) eqn:Et;
      [apply truthy_default in Et; congruence|].
    destruct (truthy (new_location u)) eqn:El;
      [apply truthy_default in El; congruence|].
    destruct (truthy (new_color_id u)) eqn:Ec;
      [apply truthy_default in Ec; congruence|].
    destruct (truthy (new_description u)) eqn:Ed;
      [apply truthy_default in Ed; congruence|].
    destruct (truthy (append_to_description u)) eqn:Ea; [discriminate|].
    repeat split.
  - intros (Ht & Hd & Hl & Hc & Ha). unfold prepare_updates.
    now rewrite Ht, Hd, Hl, Hc, Ha.
Qed.

End MoreBulkUpdate.

(** X5. Updating a list in two batches is updating it at once: the second
    batch starts from the world the first one left, and the counts add up. *)
Theorem bulk_update_in_batches
    (R : Type) (S : CalendarService R) (w : World R)
    (first second : list Event) (calendar_id : string) (u : UpdateSpec)
    (dry_run : bool) :
  let one := bulk_update w first calendar_id u dry_run in
  let two := bulk_update (fst one) second calendar_id u dry_run in
  bulk_update w (first ++ second) calendar_id u dry_run
  = (fst two, snd one + snd two).
Proof.
  intros one two. subst two one. rewrite bulk_update_app.
  destruct (bulk_update w first calendar_id u dry_run) as [w1 n1].
  apply fold_count_shift.
Qed.

(** X6. Whether an event is skipped does not depend on the event: the
    changed-field mapping is empty exactly when none of the five arguments
    is a non-empty string.  So a call either skips every event or none. *)
Theorem skip_is_decided_by_arguments (u : UpdateSpec) :
  (forall event,
      prepare_updates event u = ∅
      <-> truthy (new_title u) = false
          /\ truthy (new_description u) = false
          /\ truthy (new_location u) = false
          /\ truthy (new_color_id u) = false
          /\ truthy (append_to_description u) = false)
  /\ (forall event event',
        prepare_updates event u = ∅ <-> prepare_updates event' u = ∅).
Proof.
  split.
  - intros event. apply prepare_updates_empty_iff.
  - intros event event'. now rewrite !prepare_updates_empty_iff.
Qed.

(** The whole result of a dry run. *)
Lemma bulk_update_dry_run_eq
    (R : Type) (S : CalendarService R) (w : World R) (events : list Event)
    (calendar_id : string) (u : UpdateSpec) :
  bulk_update w events calendar_id u true
  = (mkWorld (remote w) (calls w)
       (stdout w
        ++ map (fun e => DryRun (event_get e "summary" "Untitled")
                                (prepare_updates e u))
               (filter (fun e => prepare_updates e u <> ∅) events)),
     0).
Proof.
  unfold bulk_update. generalize 0. revert w.
  induction events as [|e events IH]; intros [r c o] n; cbn [fold_left].
  - simpl. now rewrite app_nil_r.
  - assert (Hstep :
      update_event calendar_id u true (mkWorld r c o, n) e
      = (if decide (prepare_updates e u = ∅) then mkWorld r c o
         else mkWorld r c (o ++ [DryRun (event_get e "summary" "Untitled")
                                        (prepare_updates e u)]), n)).
    { unfold update_event. now destruct (decide (prepare_updates e u = ∅)). }
    rewrite Hstep.
    destruct (decide (prepare_updates e u = ∅)) as [He|He]; rewrite IH; simpl.
    + now rewrite filter_cons_False by naive_solver.
    + rewrite filter_cons_True by assumption.
      simpl. now rewrite <- app_assoc.
Qed.

(** X7. A dry run prints exactly one preview per event that has
    something to change, in input order, with the event's current title
    ("Untitled" when it has none) and its changed-field mapping; the rest
    of the world is untouched and the count is 0. *)
Theorem dry_run_previews
    (R : Type) (S : CalendarService R) (w : World R) (events : list Event)
    (calendar_id : string) (u : UpdateSpec) :
  bulk_update w events calendar_id u true
  = (mkWorld (remote w) (calls w)
       (stdout w
        ++ map (fun e => DryRun (event_get e "summary" "Untitled")
                                (prepare_updates e u))
               (filter (fun e => prepare_updates e u <> ∅) events)),
     0).
Proof. apply bulk_update_dry_run_eq. Qed.

(** A remote call that reads or writes, in calendar [calendar_id], one of
    the events of the list. *)
Definition addressed_to (calendar_id : string) (events : list Event)
    (c : call) : Prop :=
  match c with
  | ListCall _ => False
  | GetCall cal eid => cal = calendar_id /\ In eid (map event_id events)
  | UpdateCall cal eid _ => cal = calendar_id /\ In eid (map event_id events)
  end.

Lemma addressed_to_mono (calendar_id : string) (l1 l2 : list Event) (c : call) :
  (forall e, In e l1 -> In e l2) ->
  addressed_to calendar_id l1 c -> addressed_to calendar_id l2 c.
Proof.
  intros Hsub. destruct c as [req|cal eid|cal eid body]; simpl; [tauto| |];
    intros [-> Hin]; (split; [reflexivity|]);
    apply in_map_iff in Hin as (e & <- & He);
    apply in_map, Hsub, He.
Qed.

Lemma fold_calls_addressed
    (R : Type) (S : CalendarService R) (calendar_id : string)
    (u : UpdateSpec) (dry_run : bool) (events : list Event)
    (st : World R * nat) :
  exists trace,
    calls (fst (fold_left (update_event calendar_id u dry_run) events st))
    = calls (fst st) ++ trace
    /\ Forall (addressed_to calendar_id events) trace
    /\ length trace <= 2 * length events.
Proof.
  revert st. induction events as [|e events IH]; intros st; cbn [fold_left].
  - exists []. rewrite app_nil_r.
    split; [reflexivity | split; [constructor | simpl; lia]].
  - destruct (IH (update_event calendar_id u dry_run st e))
      as (trace & Hc & Hall & Hlen).
    assert (Hstep : exists t1,
      calls (fst (update_event calendar_id u dry_run st e))
      = calls (fst st) ++ t1
      /\ Forall (addressed_to calendar_id (e :: events)) t1
      /\ length t1 <= 2).
    { unfold update_event. destruct st as [w n]. cbn [fst].
      assert (Hin : In (event_id e) (map event_id (e :: events)))
        by (simpl; now left).
      assert (Hnone : exists t1 : list call,
        calls w = calls w ++ t1
        /\ Forall (addressed_to calendar_id (e :: events)) t1
        /\ length t1 <= 2).
      { exists []. rewrite app_nil_r.
        split; [reflexivity | split; [constructor | simpl; lia]]. }
      destruct (decide (prepare_updates e u = ∅)); [exact Hnone|].
      destruct dry_run; [exact Hnone|].
      destruct (events_get (remote w) calendar_id (event_id e))
        as [r [err|full]]; simpl.
      - exists [GetCall calendar_id (event_id e)].
        split; [reflexivity | split; [|simpl; lia]].
        constructor; [now split | constructor].
      - destruct (events_update r calendar_id (event_id e) _)
          as [r' [err|ok]]; simpl;
          (eexists [GetCall calendar_id (event_id e); UpdateCall _ _ _];
           split; [now rewrite <- app_assoc | split; [|simpl; lia]];
           constructor; [now split|];
           constructor; [now split | constructor]). }
    destruct Hstep as (t1 & Hc1 & Hall1 & Hlen1).
    exists (t1 ++ trace). rewrite Hc, Hc1, <- app_assoc.
    split; [reflexivity | split].
    + apply Forall_app. split; [exact Hall1|].
      eapply Forall_impl; [exact Hall|]. intros c.
      apply addressed_to_mono. intros x Hx. now right.
    + rewrite length_app. simpl in *. lia.
Qed.

(** X8. In either mode [bulk_update] never lists, and every read or write
    it issues targets the given calendar and the identifier of one of the
    events passed in; it issues at most two calls per event. *)
Theorem bulk_update_calls_only_given_events
    (R : Type) (S : CalendarService R) (w : World R) (events : list Event)
    (calendar_id : string) (u : UpdateSpec) (dry_run : bool) :
  exists trace,
    calls (fst (bulk_update w events calendar_id u dry_run))
    = calls w ++ trace
    /\ Forall (addressed_to calendar_id events) trace
    /\ length trace <= 2 * length events.
Proof. apply (fold_calls_addressed R S calendar_id u dry_run events (w, 0)). Qed.

(** Two local copies of an event that agree on what [bulk_update] reads
    in order to act: the identifier and the description. *)
Definition same_target (e e' : Event) : Prop :=
  event_id e = event_id e'
  /\ event_get e "description" "" = event_get e' "description" "".

Lemma prepare_updates_same_description (e e' : Event) (u : UpdateSpec) :
  event_get e "description" "" = event_get e' "description" "" ->
  prepare_updates e u = prepare_updates e' u.
Proof. intros Hd. unfold prepare_updates. now rewrite Hd. Qed.

Lemma update_event_same_target
    (R : Type) (S : CalendarService R) (calendar_id : string)
    (u : UpdateSpec) (dry_run : bool) (st st' : World R * nat)
    (e e' : Event) :
  same_target e e' ->
  remote (fst st) = remote (fst st') ->
  calls (fst st) = calls (fst st') ->
  snd st = snd st' ->
  let a := update_event calendar_id u dry_run st e in
  let b := update_event calendar_id u dry_run st' e' in
  remote (fst a) = remote (fst b)
  /\ calls (fst a) = calls (fst b)
  /\ snd a = snd b.
Proof.
  intros [Hid Hd] Hr Hc Hn. unfold update_event.
  destruct st as [w n], st' as [w' n']. simpl in *. subst n'.
  rewrite <- (prepare_updates_same_description e e' u Hd), <- Hid, <- Hr.
  destruct (decide (prepare_updates e u = ∅)); simpl; [now repeat split|].
  destruct dry_run; simpl; [now repeat split|].
  destruct (events_get (remote w) calendar_id (event_id e))
    as [r [err|full]]; simpl; [rewrite Hc; now repeat split|].
  destruct (events_update r calendar_id (event_id e) _) as [r' [err|ok]];
    simpl; rewrite Hc; now repeat split.
Qed.

(** X9. Only the identifier and the description of the events passed in
    reach the service: two lists of local copies that agree on these give
    the same service state, the same remote calls and the same count.
    Whatever else a local copy holds (a stale title or location, say) is
    never written back. *)
Theorem local_copies_are_not_written
    (R : Type) (S : CalendarService R) (w : World R)
    (events events' : list Event) (calendar_id : string) (u : UpdateSpec)
    (dry_run : bool) :
  Forall2 same_target events events' ->
  let a := bulk_update w events calendar_id u dry_run in
  let b := bulk_update w events' calendar_id u dry_run in
  remote (fst a) = remote (fst b)
  /\ calls (fst a) = calls (fst b)
  /\ snd a = snd b.
Proof.
  intros Hsame. unfold bulk_update.
  assert (Hgen : forall st st',
    remote (fst st) = remote (fst st') ->
    calls (fst st) = calls (fst st') ->
    snd st = snd st' ->
    let a := fold_left (update_event calendar_id u dry_run) events st in
    let b := fold_left (update_event calendar_id u dry_run) events' st' in
    remote (fst a) = remote (fst b) /\ calls (fst a) = calls (fst b)
    /\ snd a = snd b).
  { induction Hsame as [|e e' l l' He Hl IH]; intros st st' Hr Hc Hn;
      cbn [fold_left]; [now repeat split|].
    destruct (update_event_same_target R S calendar_id u dry_run st st' e e'
                He Hr Hc Hn) as (Hr1 & Hc1 & Hn1).
    now apply IH. }
  now apply Hgen.
Qed.

Lemma local_copies_are_not_written_witness :
  let fresh := sample_event "e1" "Team Meeting" (Some "Agenda") in
  let stale :=
    mkEvent "e1" (<["location" := "Old room"]>
                    (<["description" := "Agenda"]> {["summary" := "Standup"]})) in
  let u := mkUpdateSpec None None None (Some "9") (Some "Updated") in
  remote (fst (bulk_update (start (sample_calendar [fresh])) [fresh]
                           "primary" u false))
  = remote (fst (bulk_update (start (sample_calendar [fresh])) [stale]
                             "primary" u false)).
Proof.
  intros fresh stale u.
  apply (local_copies_are_not_written MemRemote mem_service
           (start (sample_calendar [fresh])) [fresh] [stale] "primary" u false).
  repeat constructor.
Defined.

(** *** What a run does to the in-memory store *)

(** The members of an event that [bulk_update] can change. *)
Definition updatable_fields : list string :=
  ["summary"; "description"; "location"; "colorId"].

Lemma prepare_updates_key (event : Event) (u : UpdateSpec) (k v : string) :
  prepare_updates event u !! k = Some v -> In k updatable_fields.
Proof.
  unfold prepare_updates, updatable_fields. intros Hk.
  apply lookup_if_insert in Hk as [(_ & -> & _) | Hk]; [simpl; tauto|].
  apply lookup_if_insert in Hk as [(_ & -> & _) | Hk]; [simpl; tauto|].
  assert (Hsum : forall (b : bool) (x : string),
    ((if b then <["summary" := x]> ∅ else ∅) : gmap string string) !! k
    = Some v -> k = "summary").
  { intros b x Hx. apply lookup_if_insert in Hx as [(_ & -> & _) | Hx];
      [reflexivity | now rewrite lookup_empty in Hx]. }
  destruct (truthy (new_description u)).
  - apply lookup_insert_Some in Hk as [[<- _] | [_ Hk]]; [simpl; tauto|].
    apply Hsum in Hk as ->. simpl; tauto.
  - destruct (truthy (append_to_description u)).
    + apply lookup_insert_Some in Hk as [[<- _] | [_ Hk]]; [simpl; tauto|].
      apply Hsum in Hk as ->. simpl; tauto.
    + apply Hsum in Hk as ->. simpl; tauto.
Qed.

(** The store [m'] holds the same events as [m]; each kept its identifier
    and every member outside [updatable_fields], and the events other
    than those of [events] in calendar [calendar_id] are unchanged. *)
Definition kept (calendar_id : string) (events : list Event)
    (m m' : MemRemote) : Prop :=
  mem_agenda m' = mem_agenda m
  /\ mem_get_faults m' = mem_get_faults m
  /\ mem_update_faults m' = mem_update_faults m
  /\ forall key,
       match mem_events m !! key, mem_events m' !! key with
       | Some ev, Some ev' =>
           event_id ev' = event_id ev
           /\ (forall k, ~ In k updatable_fields ->
                         event_fields ev' !! k = event_fields ev !! k)
           /\ (~ (fst key = calendar_id
                  /\ In (snd key) (map event_id events)) -> ev' = ev)
       | None, None => True
       | _, _ => False
       end.

Lemma kept_refl (calendar_id : string) (events : list Event) (m : MemRemote) :
  kept calendar_id events m m.
Proof.
  repeat split. intros key. destruct (mem_events m !! key); repeat split.
Qed.

Lemma kept_trans (calendar_id : string) (l1 l2 : list Event)
    (m1 m2 m3 : MemRemote) :
  kept calendar_id l1 m1 m2 -> kept calendar_id l2 m2 m3 ->
  kept calendar_id (l1 ++ l2) m1 m3.
Proof.
  intros (Ha & Hg & Hu & H12) (Ha' & Hg' & Hu' & H23).
  split; [congruence|]. split; [congruence|]. split; [congruence|].
  intros key. specialize (H12 key). specialize (H23 key).
  destruct (mem_events m1 !! key) as [e1|], (mem_events m2 !! key) as [e2|],
    (mem_events m3 !! key) as [e3|]; try tauto.
  destruct H12 as (Hid & Hf & Hsame), H23 as (Hid' & Hf' & Hsame').
  split; [congruence|]. split.
  - intros k Hk. rewrite (Hf' k Hk). now apply Hf.
  - intros Hout. rewrite map_app, in_app_iff in Hout.
    rewrite Hsame' by tauto. apply Hsame. tauto.
Qed.

Lemma update_event_remote_count
    (calendar_id : string) (u : UpdateSpec) (dry_run : bool)
    (w : World MemRemote) (n : nat) (event : Event) :
  remote (fst (update_event calendar_id u dry_run (w, n) event))
  = remote (fst (update_event calendar_id u dry_run (w, 0) event)).
Proof. now rewrite update_event_count_shift. Qed.

Lemma update_event_kept (calendar_id : string) (u : UpdateSpec)
    (dry_run : bool) (st : World MemRemote * nat) (event : Event) :
  kept calendar_id [event] (remote (fst st))
       (remote (fst (update_event calendar_id u dry_run st event))).
Proof.
  destruct st as [w n]. destruct dry_run.
  - destruct (update_event_dry_run calendar_id u (w, n) event) as (-> & _).
    apply kept_refl.
  - rewrite update_event_remote_count.
    change (update_event calendar_id u false (w, 0) event)
      with (bulk_update w [event] calendar_id u false).
    rewrite mem_live_once. simpl.
    destruct (mem_events (remote w) !! (calendar_id, event_id event))
      as [stored|] eqn:Hs; [|apply kept_refl].
    destruct (decide (prepare_updates event u = ∅)); [apply kept_refl|].
    destruct (mem_get_faults (remote w) !! event_id event); [apply kept_refl|].
    destruct (mem_update_faults (remote w) !! event_id event);
      [apply kept_refl|].
    repeat split. simpl. intros key.
    destruct (decide (key = (calendar_id, event_id event))) as [->|Hne].
    + rewrite Hs, lookup_insert_eq. simpl. repeat split.
      * intros k Hk. apply lookup_union_r.
        destruct (prepare_updates event u !! k) as [v|] eqn:Hkv;
          [|reflexivity].
        now apply prepare_updates_key in Hkv.
      * intros Hout. exfalso. apply Hout. simpl. tauto.
    + rewrite lookup_insert_ne by congruence.
      destruct (mem_events (remote w) !! key); repeat split.
Qed.

Lemma fold_kept (calendar_id : string) (u : UpdateSpec) (dry_run : bool)
    (events : list Event) (st : World MemRemote * nat) :
  kept calendar_id events (remote (fst st))
       (remote (fst (fold_left (update_event calendar_id u dry_run)
                               events st))).
Proof.
  revert st. induction events as [|e events IH]; intros st; cbn [fold_left].
  - apply kept_refl.
  - apply (kept_trans calendar_id [e] events _
             (remote (fst (update_event calendar_id u dry_run st e)))).
    + apply update_event_kept.
    + apply IH.
Qed.

(** X10. On the in-memory service a run, in either mode, neither creates
    nor deletes an event; every stored event keeps its identifier and all
    members other than summary, description, location and colorId; and an
    event that is not one of those passed in, or lives in another
    calendar, is left exactly as it was. *)
Theorem bulk_update_keeps_the_rest
    (w : World MemRemote) (events : list Event) (calendar_id : string)
    (u : UpdateSpec) (dry_run : bool) :
  let m := remote w in
  let m' := remote (fst (bulk_update w events calendar_id u dry_run)) in
  dom (mem_events m') = dom (mem_events m)
  /\ forall key ev,
       mem_events m !! key = Some ev ->
       exists ev',
         mem_events m' !! key = Some ev'
         /\ event_id ev' = event_id ev
         /\ (forall k, ~ In k updatable_fields ->
                       event_fields ev' !! k = event_fields ev !! k)
         /\ (~ (fst key = calendar_id
                /\ In (snd key) (map event_id events)) -> ev' = ev).
Proof.
  intros m m'. subst m m'.
  destruct (fold_kept calendar_id u dry_run events (w, 0))
    as (_ & _ & _ & Hkeys).
  fold (bulk_update w events calendar_id u dry_run) in Hkeys. simpl in Hkeys.
  split.
  - apply set_eq. intros key. rewrite !elem_of_dom. specialize (Hkeys key).
    destruct (mem_events (remote w) !! key),
      (mem_events (remote (fst (bulk_update w events calendar_id u dry_run)))
       !! key); split; intros [x Hx]; try discriminate; try tauto; eauto.
  - intros key ev Hev. specialize (Hkeys key). rewrite Hev in Hkeys.
    destruct (mem_events
                (remote (fst (bulk_update w events calendar_id u dry_run)))
              !! key) as [ev'|]; [|tauto].
    exists ev'. tauto.
Qed.

Lemma bulk_update_keeps_the_rest_witness :
  let u := mkUpdateSpec (Some "Sync") None None None None in
  mem_events
    (remote (fst (bulk_update (start (sample_calendar meeting_events))
                    [sample_event "e1" "Team Meeting" None] "primary" u false)))
  !! ("primary", "e2") = Some (sample_event "e2" "Lunch" None).
Proof.
  intros u.
  destruct (proj2 (bulk_update_keeps_the_rest
                     (start (sample_calendar meeting_events))
                     [sample_event "e1" "Team Meeting" None] "primary" u false)
              ("primary", "e2") (sample_event "e2" "Lunch" None))
    as (ev' & Hev' & _ & _ & Hsame).
  - vm_compute. reflexivity.
  - rewrite Hev'. f_equal. apply Hsame. simpl. intros [_ [He|[]]].
    discriminate.
Defined.

(** The event is stored in calendar [calendar_id] of [m] and no call on
    it is refused. *)
Definition reachable (m : MemRemote) (calendar_id : string) (e : Event)
  : Prop :=
  is_Some (mem_events m !! (calendar_id, event_id e))
  /\ mem_get_faults m !! event_id e = None
  /\ mem_update_faults m !! event_id e = None.

Lemma mem_update_event_ok (calendar_id : string) (u : UpdateSpec)
    (w : World MemRemote) (n : nat) (event : Event) :
  prepare_updates event u <> ∅ ->
  reachable (remote w) calendar_id event ->
  exists w',
    update_event calendar_id u false (w, n) event = (w', S n)
    /\ stdout w' = stdout w ++ [Updated (event_title event)]
    /\ forall e, reachable (remote w) calendar_id e ->
                 reachable (remote w') calendar_id e.
Proof.
  intros Hne ([stored Hs] & Hg & Hu). unfold update_event.
  rewrite decide_False by assumption. simpl. unfold mem_get.
  rewrite Hg, Hs. simpl. unfold mem_update. rewrite Hu, Hs. simpl.
  eexists. split; [reflexivity|]. split; [reflexivity|].
  intros e ([x Hx] & Hg' & Hu'). repeat split; simpl; try assumption.
  destruct (decide ((calendar_id, event_id e) = (calendar_id, event_id event)))
    as [->|Hk].
  - rewrite lookup_insert_eq. eauto.
  - rewrite lookup_insert_ne by congruence. eauto.
Qed.

(** X11. On the in-memory service, when at least one argument is a
    non-empty string and every event passed in is stored and not refused,
    a live run updates them all: the count is the number of events and the
    reports are the successes, one per event, in input order. *)
Theorem live_run_updates_all
    (w : World MemRemote) (events : list Event) (calendar_id : string)
    (u : UpdateSpec) :
  truthy (new_title u) || truthy (new_description u)
  || truthy (new_location u) || truthy (new_color_id u)
  || truthy (append_to_description u) = true ->
  Forall (reachable (remote w) calendar_id) events ->
  let out := bulk_update w events calendar_id u false in
  snd out = length events
  /\ stdout (fst out)
     = stdout w ++ map (fun e => Updated (event_title e)) events.
Proof.
  intros Hsome Hall.
  assert (Hne : forall e, prepare_updates e u <> ∅).
  { intros e He. apply prepare_updates_empty_iff in He
      as (Ht & Hd & Hl & Hc & Ha).
    rewrite Ht, Hd, Hl, Hc, Ha in Hsome. discriminate. }
  unfold bulk_update.
  assert (Hgen : forall (st : World MemRemote * nat),
    Forall (reachable (remote (fst st)) calendar_id) events ->
    let out := fold_left (update_event calendar_id u false) events st in
    snd out = snd st + length events
    /\ stdout (fst out)
       = stdout (fst st) ++ map (fun e => Updated (event_title e)) events).
  { clear Hall. induction events as [|e events IH]; intros [w0 n] Hreach;
      cbn [fold_left].
    - simpl. rewrite app_nil_r. split; [lia | reflexivity].
    - apply Forall_cons in Hreach as [He Hrest].
      destruct (mem_update_event_ok calendar_id u w0 n e (Hne e) He)
        as (w1 & Hstep & Hout & Hkeep).
      rewrite Hstep.
      destruct (IH (w1, S n)) as [Hn Ho].
      { simpl. eapply Forall_impl; [exact Hrest|]. exact Hkeep. }
      simpl in *. rewrite Hn, Ho, Hout, <- app_assoc. split; [lia | reflexivity]. }
  destruct (Hgen (w, 0) Hall) as [Hn Ho]. simpl in *. now split.
Qed.

Lemma live_run_updates_all_witness :
  snd (bulk_update (start (sample_calendar meeting_events)) meeting_events
         "primary" (mkUpdateSpec None None None (Some "9") None) false)
  = 3.
Proof.
  apply (live_run_updates_all (start (sample_calendar meeting_events))
           meeting_events "primary"
           (mkUpdateSpec None None None (Some "9") None)).
  - reflexivity.
  - repeat constructor; vm_compute; eauto.
Defined.

(** ** More on the description append *)

Lemma strip_blank_prefix (l t : string) :
  all_space l = true -> strip (l +:+ t) = strip t.
Proof. intros Hl. unfold strip. now rewrite lstrip_blank_prefix. Qed.

(** The description written by the append branch. *)
Lemma prepare_updates_append
    (event : Event) (title description location color : option string)
    (a : string) :
  truthy description = false ->
  a <> "" ->
  prepare_updates event
    (mkUpdateSpec title description location color (Some a))
  !! "description"
  = Some (strip (event_get event "description" "" +:+ LF +:+ a)).
Proof.
  intros Hd Ha. rewrite prepare_updates_description. simpl. rewrite Hd.
  destruct a as [|c a]; [congruence | reflexivity].
Qed.

(** X12. Appending to an event whose description is missing, empty or
    blank stores the append text trimmed: the separating line feed does
    not survive. *)
Theorem append_to_blank_description
    (event : Event) (title description location color : option string)
    (a : string) :
  truthy description = false ->
  a <> "" ->
  all_space (event_get event "description" "") = true ->
  prepare_updates event
    (mkUpdateSpec title description location color (Some a))
  !! "description" = Some (strip a).
Proof.
  intros Hd Ha Hblank.
  rewrite (prepare_updates_append event title description location color a
             Hd Ha).
  f_equal.
  rewrite <- (strip_blank_prefix (event_get event "description" "" +:+ LF) a).
  - now rewrite app_assoc_str.
  - rewrite all_space_app, Hblank. reflexivity.
Qed.

Lemma append_to_blank_description_witness :
  prepare_updates (sample_event "e1" "Standup" (Some "  "))
    (mkUpdateSpec None None None None (Some "Zoom: room 4 "))
  !! "description" = Some "Zoom: room 4".
Proof.
  rewrite (append_to_blank_description
             (sample_event "e1" "Standup" (Some "  ")) None None None None
             "Zoom: room 4 ");
    [reflexivity | reflexivity | discriminate | reflexivity].
Defined.

(** X13. When the existing description is not empty and does not start
    with whitespace, and the append text does not end with whitespace,
    nothing is trimmed: the new description is the old one, a line feed
    and the append text. *)
Theorem append_without_trimming
    (event : Event) (title description location color : option string)
    (a : string) :
  truthy description = false ->
  a <> "" ->
  ends_with_space a = false ->
  event_get event "description" "" <> "" ->
  starts_with_space (event_get event "description" "") = false ->
  prepare_updates event
    (mkUpdateSpec title description location color (Some a))
  !! "description"
  = Some (event_get event "description" "" +:+ LF +:+ a).
Proof.
  intros Hd Ha Hend Hne Hstart.
  rewrite (prepare_updates_append event title description location color a
             Hd Ha).
  f_equal. apply strip_fixed.
  - now rewrite starts_with_space_app.
  - rewrite ends_with_space_app; [|now destruct a].
    now rewrite ends_with_space_app.
Qed.

Lemma append_without_trimming_witness :
  prepare_updates (sample_event "e1" "Standup" (Some "Agenda: X"))
    (mkUpdateSpec None None None None (Some "  (moved)"))
  !! "description" = Some ("Agenda: X" +:+ LF +:+ "  (moved)").
Proof.
  apply (append_without_trimming
           (sample_event "e1" "Standup" (Some "Agenda: X"))
           None None None None "  (moved)");
    first [reflexivity | discriminate].
Defined.

Lemma rstrip_empty_iff (t : string) : rstrip t = "" <-> all_space t = true.
Proof.
  induction t as [|c t IH]; simpl; [tauto|].
  destruct (rstrip t) as [|d r] eqn:Hr.
  - destruct IH as [IH _]. rewrite (IH eq_refl), andb_true_r.
    destruct (isspace c); split; try reflexivity; discriminate.
  - split; [discriminate|]. intros [_ Ht]%andb_true_iff.
    destruct IH as [_ IH]. now apply IH in Ht.
Qed.

Lemma all_space_lstrip (s : string) : all_space (lstrip s) = all_space s.
Proof.
  induction s as [|c s IH]; simpl; [reflexivity|].
  destruct (isspace c) eqn:Hc; simpl; [exact IH | now rewrite Hc].
Qed.

Lemma app_empty_str (s t : string) : s +:+ t = "" -> t = "".
Proof. destruct s; [now rewrite app_nil_str | discriminate]. Qed.

Lemma rstrip_app (s t : string) :
  rstrip t <> "" -> rstrip (s +:+ t) = s +:+ rstrip t.
Proof.
  intros Ht. induction s as [|c s IH]; [reflexivity|].
  rewrite !app_cons_str. cbn [rstrip]. rewrite IH.
  destruct (s +:+ rstrip t) eqn:Hst; [|reflexivity].
  now apply app_empty_str in Hst.
Qed.

Lemma length_app_str (s t : string) :
  String.length (s +:+ t) = String.length s + String.length t.
Proof.
  induction s as [|c s IH]; [reflexivity|].
  rewrite app_cons_str. simpl. now rewrite IH.
Qed.

(** X14. Appending is repeated, not idempotent: when the append text has a
    character that is not whitespace and the event is read again after a
    first append (its description is then [x]), the same append writes
    [x], a line feed and the append text without its trailing whitespace,
    which is longer than [x]. *)
Theorem append_accumulates
    (reread : Event) (d : string)
    (title description location color : option string) (a : string) :
  truthy description = false ->
  all_space a = false ->
  let x := strip (d +:+ LF +:+ a) in
  event_get reread "description" "" = x ->
  prepare_updates reread
    (mkUpdateSpec title description location color (Some a))
  !! "description" = Some (x +:+ LF +:+ rstrip a)
  /\ x +:+ LF +:+ rstrip a <> x.
Proof.
  intros Hd Hblank x Hx.
  assert (Ha : a <> "") by (intros ->; discriminate).
  assert (Hra : rstrip a <> "").
  { intros Hr. apply rstrip_empty_iff in Hr. congruence. }
  assert (Hxne : x <> "").
  { subst x. unfold strip. intros Hr. apply rstrip_empty_iff in Hr.
    rewrite all_space_lstrip, !all_space_app, Hblank, !andb_false_r in Hr.
    discriminate. }
  assert (Hxhead : starts_with_space x = false).
  { subst x. apply strip_trimmed. }
  split.
  - rewrite (prepare_updates_append reread title description location color a
               Hd Ha), Hx.
    f_equal. unfold strip.
    rewrite lstrip_fixed by (now rewrite starts_with_space_app).
    rewrite rstrip_app.
    + now rewrite (rstrip_app LF a Hra).
    + rewrite (rstrip_app LF a Hra). discriminate.
  - intros Heq. apply (f_equal String.length) in Heq.
    rewrite !length_app_str in Heq. simpl in Heq. lia.
Qed.

Lemma append_accumulates_witness :
  prepare_updates (sample_event "e1" "Standup" (Some ("Agenda" +:+ LF +:+ "Done")))
    (mkUpdateSpec None None None None (Some "Done "))
  !! "description" = Some ("Agenda" +:+ LF +:+ "Done" +:+ LF +:+ "Done").
Proof.
  apply (append_accumulates
           (sample_event "e1" "Standup" (Some ("Agenda" +:+ LF +:+ "Done")))
           "Agenda" None None None None "Done ");
    reflexivity.
Defined.

(** ** More on [_authenticate] *)

(** What [_authenticate] leaves of the environment. *)
Lemma authenticate_outcome (credentials_path : string) (env : AuthEnv) :
  let out := _authenticate credentials_path env in
  client_secret_exists (fst out) = client_secret_exists env
  /\ refresh (fst out) = refresh env
  /\ run_local_server (fst out) = run_local_server env
  /\ match snd out with
     | Session c => token_file (fst out) = Some c
     | _ => fst out = env
     end.
Proof.
  unfold _authenticate.
  destruct (token_file env) as [c|] eqn:Hc.
  - destruct (valid c); simpl; [repeat split; congruence|].
    destruct (expired c && truthy (refresh_token c)).
    + destruct (refresh env c) eqn:Hr; simpl; repeat split; congruence.
    + destruct (client_secret_exists env) eqn:Hs; simpl;
        [|repeat split; congruence].
      destruct (run_local_server env) eqn:Hg; simpl; repeat split; congruence.
  - destruct (client_secret_exists env) eqn:Hs; simpl;
      [|repeat split; congruence].
    destruct (run_local_server env) eqn:Hg; simpl; repeat split; congruence.
Qed.

(** X15. [_authenticate] touches nothing but the token file, and writes it
    only on success: a returned session's credential is the one the token
    file then holds, and after a failure the environment is as before. *)
Theorem authenticate_persists (credentials_path : string) (env : AuthEnv) :
  let out := _authenticate credentials_path env in
  client_secret_exists (fst out) = client_secret_exists env
  /\ refresh (fst out) = refresh env
  /\ run_local_server (fst out) = run_local_server env
  /\ match snd out with
     | Session c => token_file (fst out) = Some c
     | _ => fst out = env
     end.
Proof. apply authenticate_outcome. Qed.

(** X16. Once a valid credential has been obtained, authenticating again
    returns that same credential from the token file and changes nothing:
    neither the refresh nor the interactive grant is consulted. *)
Theorem authenticate_again_uses_cache
    (credentials_path credentials_path' : string) (env : AuthEnv)
    (c : Credentials) :
  snd (_authenticate credentials_path env) = Session c ->
  valid c = true ->
  _authenticate credentials_path' (fst (_authenticate credentials_path env))
  = (fst (_authenticate credentials_path env), Session c).
Proof.
  intros Hs Hv.
  pose proof (authenticate_outcome credentials_path env) as (_ & _ & _ & Hp).
  simpl in Hp. rewrite Hs in Hp.
  unfold _authenticate at 1. rewrite Hp, Hv. reflexivity.
Qed.

Lemma authenticate_again_uses_cache_witness :
  let env := mkAuthEnv None true (fun c => inl "invalid_grant")
                       (inr (mkCredentials true false (Some "1//r"))) in
  _authenticate "other.json" (fst (_authenticate "credentials.json" env))
  = (fst (_authenticate "credentials.json" env),
     Session (mkCredentials true false (Some "1//r"))).
Proof.
  intros env.
  apply (authenticate_again_uses_cache "credentials.json" "other.json" env
           (mkCredentials true false (Some "1//r")));
    reflexivity.
Defined.

(** X17. An authorisation failure has exactly two origins: the refresh
    call raised on a cached credential that is not valid, expired and
    carries a refresh token (the interactive grant is then not attempted);
    or the interactive grant raised, which is tried only without a usable
    cached credential and with the client-secret file present. *)
Theorem authorization_failure_origin
    (credentials_path : string) (env : AuthEnv) (e : exn) :
  snd (_authenticate credentials_path env) = AuthorizationFailure e
  <-> (exists c, token_file env = Some c /\ valid c = false
                 /\ expired c = true /\ truthy (refresh_token c) = true
                 /\ refresh env c = inl e)
      \/ (~ cached_valid env /\ ~ cached_refreshable env
          /\ client_secret_exists env = true
          /\ run_local_server env = inl e).
Proof.
  unfold _authenticate, cached_valid, cached_refreshable.
  destruct (token_file env) as [c|] eqn:Hc.
  - destruct (valid c) eqn:Hv; simpl.
    + split; [discriminate|].
      intros [(c' & [= <-] & ? & _) | (Hnv & _)]; [congruence|].
      exfalso. apply Hnv. eauto.
    + destruct (expired c) eqn:He, (truthy (refresh_token c)) eqn:Hr; simpl.
      * split.
        -- destruct (refresh env c) eqn:Hrf; simpl; [|discriminate].
           intros [= ->]. left. exists c. now repeat split.
        -- intros [(c' & [= <-] & _ & _ & _ & ->) | (_ & Hnr & _)];
             [reflexivity|]. exfalso. apply Hnr. eauto.
      * destruct (client_secret_exists env) eqn:Hs; simpl.
        -- split.
           ++ destruct (run_local_server env) eqn:Hg; simpl; [|discriminate].
              intros [= ->]. right. repeat split; try reflexivity.
              ** intros (c' & [= <-] & ?). congruence.
              ** intros (c' & [= <-] & _ & ?). congruence.
           ++ intros [(c' & [= <-] & _ & _ & ? & _) | (_ & _ & _ & ->)];
                [congruence | reflexivity].
        -- split; [discriminate|].
           intros [(c' & [= <-] & _ & _ & ? & _) | (_ & _ & ? & _)];
             congruence.
      * destruct (client_secret_exists env) eqn:Hs; simpl.
        -- split.
           ++ destruct (run_local_server env) eqn:Hg; simpl; [|discriminate].
              intros [= ->]. right. repeat split; try reflexivity.
              ** intros (c' & [= <-] & ?). congruence.
              ** intros (c' & [= <-] & ? & _). congruence.
           ++ intros [(c' & [= <-] & _ & ? & _) | (_ & _ & _ & ->)];
                [congruence | reflexivity].
        -- split; [discriminate|].
           intros [(c' & [= <-] & _ & ? & _) | (_ & _ & ? & _)];
             congruence.
      * destruct (client_secret_exists env) eqn:Hs; simpl.
        -- split.
           ++ destruct (run_local_server env) eqn:Hg; simpl; [|discriminate].
              intros [= ->]. right. repeat split; try reflexivity.
              ** intros (c' & [= <-] & ?). congruence.
              ** intros (c' & [= <-] & ? & _). congruence.
           ++ intros [(c' & [= <-] & _ & ? & _) | (_ & _ & _ & ->)];
                [congruence | reflexivity].
        -- split; [discriminate|].
           intros [(c' & [= <-] & _ & ? & _) | (_ & _ & ? & _)];
             congruence.
  - destruct (client_secret_exists env) eqn:Hs; simpl.
    + split.
      * destruct (run_local_server env) eqn:Hg; simpl; [|discriminate].
        intros [= ->]. right. repeat split; try reflexivity;
          intros (c' & ? & _); discriminate.
      * intros [(c' & ? & _) | (_ & _ & _ & ->)];
          [discriminate | reflexivity].
    + split; [discriminate|].
      intros [(c' & ? & _) | (_ & _ & ? & _)]; congruence.
Qed.

(** ** The colour palette and the scripts

    The rest of the two source files: the table [COLOR_IDS], the
    [__main__] block of [calendar_updater.py] and the functions of
    [example_usage.py]. *)

Definition color_table : list (string * string) :=
  [ ("lavender", "1"); ("sage", "2"); ("grape", "3"); ("flamingo", "4");
    ("banana", "5"); ("tangerine", "6"); ("peacock", "7"); ("graphite", "8");
    ("blueberry", "9"); ("basil", "10"); ("tomato", "11") ].

(** The dictionary [COLOR_IDS]; [COLOR_IDS[name]] is [COLOR_IDS !! name],
    which raises [KeyError] when it is [None]. *)
Definition COLOR_IDS : gmap string string := list_to_map color_table.

(** *** Dates *)

Definition is_leap (y : Z) : bool :=
  ((y mod 4 =? 0) && (negb (y mod 100 =? 0) || (y mod 400 =? 0)))%Z.

Definition days_before_year (y : Z) : Z :=
  let p := (y - 1)%Z in (p * 365 + p / 4 - p / 100 + p / 400)%Z.

Definition days_before_month (y m : Z) : Z :=
  (nth (Z.to_nat m) [0; 0; 31; 59; 90; 120; 151; 181; 212; 243; 273; 304; 334] 0
   + (if (2 <? m) && is_leap y then 1 else 0))%Z.

(** [datetime(y, m, d)]: midnight of that day, counting microseconds from
    0001-01-01T00:00. *)
Definition datetime_ymd (y m d : Z) : datetime :=
  ((days_before_year y + days_before_month y m + d - 1)
   * microseconds_per_day)%Z.

(** *** A small monad for the scripts *)

(** What a script prints: the lines of the [CalendarUpdater] methods and
    its own. *)
Inductive console_line :=
| Lib (o : output)
| Heading (text : string)
| FoundRunningDryRun (n : nat)
| NoEventsFound
| ErrorLine (e : exn)
| SetupInstructions
| ProjectEventsWithoutLocation (n : nat).

(** The exceptions a script distinguishes, each with its message. *)
Inductive script_error :=
| FileNotFoundError (msg : exn)
| OtherException (msg : exn).

(** Everything a script acts on: the authentication environment, the
    service and its trace, the console, and the clock ([clock k] is what
    the [k]-th call of [datetime.utcnow()] returns).  An exception of the
    collaborators is known by its message only; [file_not_found e] tells
    whether the one raised with message [e] is a [FileNotFoundError],
    which is all the scripts ask of its class. *)
Record Machine (R : Type) := mkMachine {
  auth_env : AuthEnv;
  world : World R;
  console : list console_line;
  clock : nat -> datetime;
  ticks : nat;
  file_not_found : exn -> bool
}.
Arguments mkMachine {R}.
Arguments auth_env {R}.
Arguments world {R}.
Arguments console {R}.
Arguments clock {R}.
Arguments ticks {R}.
Arguments file_not_found {R}.

(** An exception of a collaborator, as the scripts see it. *)
Definition classify {R} (m : Machine R) (e : exn) : script_error :=
  if file_not_found m e then FileNotFoundError e else OtherException e.

Definition Script (R A : Type) : Type :=
  Machine R -> Machine R * (script_error + A).

Definition ret {R A} (a : A) : Script R A := fun m => (m, inr a).

Definition bind {R A B} (s : Script R A) (k : A -> Script R B) : Script R B :=
  fun m =>
    match s m with
    | (m', inl e) => (m', inl e)
    | (m', inr a) => k a m'
    end.

Notation "'let*' x := s 'in' k" := (bind s (fun x => k))
  (at level 10, x name, s at level 100, k at level 200).
Notation "'run' s 'then' k" := (bind s (fun _ => k))
  (at level 10, s at level 100, k at level 200).

(** [print(...)] in a script. *)
Definition say {R} (line : console_line) : Script R unit :=
  fun m => (mkMachine (auth_env m) (world m) (console m ++ [line])
                      (clock m) (ticks m) (file_not_found m), inr tt).

(** [datetime.utcnow()]. *)
Definition utcnow {R} : Script R datetime :=
  fun m => (mkMachine (auth_env m) (world m) (console m) (clock m)
                      (S (ticks m)) (file_not_found m),
            inr (clock m (ticks m))).

(** The lines a method printed while taking the world from [before] to
    [after]. *)
Definition printed {R} (before after : World R) : list console_line :=
  map Lib (drop (length (stdout before)) (stdout after)).

Definition missing_secret_message (credentials_path : string) : exn :=
  "Credentials file not found at " +:+ credentials_path
  +:+ ". Please download it from Google Cloud Console.".

(** [CalendarUpdater()]: authenticate with the default paths; the object
    built is the machine's service.  The missing client secret is raised
    by [_authenticate] itself, as a [FileNotFoundError]. *)
Definition new_updater {R} : Script R unit :=
  fun m =>
    let '(env, session) := _authenticate "credentials.json" (auth_env m) in
    let m' := mkMachine env (world m) (console m) (clock m) (ticks m)
                        (file_not_found m) in
    match session with
    | MissingClientSecret p =>
        (m', inl (FileNotFoundError (missing_secret_message p)))
    | AuthorizationFailure e => (m', inl (classify m e))
    | Session _ => (m', inr tt)
    end.

(** [updater.find_events(...)] on the calendar ['primary']; the method
    reads the clock itself only when [start_date] is omitted. *)
Definition find {R} `{CalendarService R} (title_contains : option string)
    (start_date end_date : option datetime) (max_results : Z)
  : Script R (list Event) :=
  fun m =>
    let '(w, found) :=
      find_events (world m) (clock m (ticks m)) "primary" title_contains
                  start_date end_date max_results in
    let m' := mkMachine (auth_env m) w (console m ++ printed (world m) w)
                (clock m)
                (match start_date with
                 | Some _ => ticks m
                 | None => S (ticks m)
                 end)
                (file_not_found m) in
    match found with
    | inl e => (m', inl (classify m e))
    | inr events => (m', inr events)
    end.

(** [updater.bulk_update(events, ...)] on the calendar ['primary']. *)
Definition update {R} `{CalendarService R} (events : list Event)
    (u : UpdateSpec) (dry_run : bool) : Script R nat :=
  fun m =>
    let '(w, n) := bulk_update (world m) events "primary" u dry_run in
    (mkMachine (auth_env m) w (console m ++ printed (world m) w)
               (clock m) (ticks m) (file_not_found m), inr n).

(** [COLOR_IDS[name]]; the message of a [KeyError] is the quoted key. *)
Definition color {R} (name : string) : Script R string :=
  fun m =>
    match COLOR_IDS !! name with
    | Some i => (m, inr i)
    | None => (m, inl (OtherException ("'" +:+ name +:+ "'")))
    end.

(** The string ["=" * n]. *)
Fixpoint rule (n : nat) : string :=
  match n with
  | O => ""
  | S n' => "=" +:+ rule n'
  end.

Section Scripts.
Context {R : Type} `{CalendarService R}.

(** *** [calendar_updater.py], run as a script *)

(** The body of the [try]. *)
Definition main_body : Script R unit :=
  run new_updater then
  let* t1 := utcnow in
  let* t2 := utcnow in
  let* events := find (Some "Meeting") (Some t1) (Some (add_days t2 30)) 100 in
  match events with
  | _ :: _ =>
      run say (FoundRunningDryRun (length events)) then
      let* blueberry := color "blueberry" in
      run update events
        (mkUpdateSpec None None None (Some blueberry)
                      (Some "Updated via bulk script")) true then
      ret tt
  | [] => say NoEventsFound
  end.

(** The two [except] clauses around it. *)
Definition try_except (body : Script R unit) : Script R unit :=
  fun m =>
    match body m with
    | (m', inl (FileNotFoundError e)) =>
        (run say (ErrorLine e) then say SetupInstructions) m'
    | (m', inl (OtherException e)) => say (ErrorLine e) m'
    | (m', inr tt) => (m', inr tt)
    end.

Definition main : Script R unit :=
  run say (Heading "Google Calendar Bulk Updater") then
  run say (Heading (rule 50)) then
  try_except main_body.

(** *** [example_usage.py] *)

Definition example_1_update_meeting_titles : Script R unit :=
  run new_updater then
  let* t1 := utcnow in
  let* t2 := utcnow in
  let* events :=
    find (Some "Team Meeting") (Some t1) (Some (add_days t2 60)) 100 in
  run update events
        (mkUpdateSpec (Some "Team Sync") None None None None) true then
  ret tt.

Definition example_2_add_zoom_links : Script R unit :=
  run new_updater then
  let* t1 := utcnow in
  let* t2 := utcnow in
  let* events := find (Some "Remote") (Some t1) (Some (add_days t2 30)) 100 in
  let zoom_link :=
    LF +:+ LF +:+ "Zoom: https://zoom.us/j/your-meeting-id" in
  run update events
        (mkUpdateSpec None None None None (Some zoom_link)) true then
  ret tt.

Definition example_3_color_code_events : Script R unit :=
  run new_updater then
  let* t1 := utcnow in
  let* t2 := utcnow in
  let* one_on_ones :=
    find (Some "1:1") (Some t1) (Some (add_days t2 90)) 100 in
  let* blueberry := color "blueberry" in
  run update one_on_ones
    (mkUpdateSpec None None None (Some blueberry) None) true then
  let* t3 := utcnow in
  let* t4 := utcnow in
  let* interviews :=
    find (Some "Interview") (Some t3) (Some (add_days t4 90)) 100 in
  let* basil := color "basil" in
  run update interviews (mkUpdateSpec None None None (Some basil) None) true then
  ret tt.

Definition example_4_update_location : Script R unit :=
  run new_updater then
  let* t1 := utcnow in
  let* t2 := utcnow in
  let* events := find (Some "Office") (Some t1) (Some (add_days t2 30)) 100 in
  run update events
    (mkUpdateSpec None None (Some "123 Main St, Conference Room A") None None)
    true then
  ret tt.

(** The condition of the comprehension in [example_5]. *)
Definition project_without_location (e : Event) : bool :=
  contains "project" (lower (event_get e "summary" ""))
  && String.eqb (event_get e "location" "") "".

Definition example_5_custom_search_and_update : Script R unit :=
  run new_updater then
  let* events :=
    find None (Some (datetime_ymd 2025 10 20))
         (Some (datetime_ymd 2025 10 27)) 50 in
  let filtered_events := List.filter project_without_location events in
  run say (ProjectEventsWithoutLocation (length filtered_events)) then
  let* peacock := color "peacock" in
  run update filtered_events
    (mkUpdateSpec None None (Some "Remote") (Some peacock) None) true then
  ret tt.

End Scripts.

(** *** The palette *)




(** *** What the scripts do to the calendar *)

Definition is_listing (c : call) : Prop :=
  match c with
  | ListCall _ => True
  | _ => False
  end.

(** The script issues at most [n] remote calls, all of them listings. *)
Definition lists_at_most {R A} (n : nat) (s : Script R A) : Prop :=
  forall m, exists trace,
    calls (world (fst (s m))) = calls (world m) ++ trace
    /\ Forall is_listing trace
    /\ length trace <= n.

Section ScriptFacts.
Context {R : Type} `{CalendarService R}.

Lemma no_call {A} (n : nat) (s : Script R A) :
  (forall m, calls (world (fst (s m))) = calls (world m)) ->
  lists_at_most n s.
Proof.
  intros Hs m. exists []. rewrite app_nil_r.
  split; [apply Hs | split; [constructor | simpl; lia]].
Qed.

Lemma lists_ret {A} (n : nat) (a : A) : lists_at_most n (@ret R A a).
Proof. now apply no_call. Qed.

Lemma lists_say (n : nat) (line : console_line) :
  lists_at_most n (@say R line).
Proof. now apply no_call. Qed.

Lemma lists_utcnow (n : nat) : lists_at_most n (@utcnow R).
Proof. now apply no_call. Qed.

Lemma lists_color (n : nat) (name : string) : lists_at_most n (@color R name).
Proof.
  apply no_call. intros m. unfold color. now destruct (COLOR_IDS !! name).
Qed.

Lemma lists_new_updater (n : nat) : lists_at_most n (@new_updater R).
Proof.
  apply no_call. intros m. unfold new_updater.
  destruct (_authenticate "credentials.json" (auth_env m)) as [env [p|e|c]];
    reflexivity.
Qed.

Lemma lists_update_dry_run (n : nat) (events : list Event) (u : UpdateSpec) :
  lists_at_most n (update events u true).
Proof.
  apply no_call. intros m. unfold update.
  pose proof (fold_dry_run "primary" u events (world m, 0)) as (_ & Hc & _).
  fold (bulk_update (world m) events "primary" u true) in Hc.
  destruct (bulk_update (world m) events "primary" u true) as [w k].
  exact Hc.
Qed.

Lemma lists_find (n : nat) (title_contains : option string)
    (start_date end_date : option datetime) (max_results : Z) :
  lists_at_most (S n) (find title_contains start_date end_date max_results).
Proof.
  intros m. unfold find.
  pose proof (find_events_effects R _ (world m) (clock m (ticks m)) "primary"
                title_contains start_date end_date max_results) as (Hc & _).
  simpl in Hc.
  destruct (find_events (world m) (clock m (ticks m)) "primary" title_contains
              start_date end_date max_results) as [w [e|found]];
    (eexists; split; [exact Hc | split; [repeat constructor | simpl; lia]]).
Qed.

Lemma lists_bind {A B} (n1 n2 : nat) (s : Script R A) (k : A -> Script R B) :
  lists_at_most n1 s -> (forall a, lists_at_most n2 (k a)) ->
  lists_at_most (n1 + n2) (bind s k).
Proof.
  intros Hs Hk m. unfold bind.
  destruct (Hs m) as (t1 & Hc1 & Hl1 & Hn1).
  destruct (s m) as [m1 [e|a]]; simpl in *.
  - exists t1. split; [exact Hc1 | split; [exact Hl1 | lia]].
  - destruct (Hk a m1) as (t2 & Hc2 & Hl2 & Hn2).
    exists (t1 ++ t2). rewrite Hc2, Hc1, <- app_assoc.
    split; [reflexivity | split; [now apply Forall_app | ]].
    rewrite length_app. lia.
Qed.

Lemma lists_quiet_bind {A B} (n : nat) (s : Script R A) (k : A -> Script R B) :
  lists_at_most 0 s -> (forall a, lists_at_most n (k a)) ->
  lists_at_most n (bind s k).
Proof. intros Hs Hk. now apply (lists_bind 0 n). Qed.

Lemma lists_find_bind {B} (n : nat) (title_contains : option string)
    (start_date end_date : option datetime) (max_results : Z)
    (k : list Event -> Script R B) :
  (forall events, lists_at_most n (k events)) ->
  lists_at_most (S n)
    (bind (find title_contains start_date end_date max_results) k).
Proof. intros Hk. apply (lists_bind 1 n); [apply lists_find | exact Hk]. Qed.

Lemma lists_try_except (n : nat) (body : Script R unit) :
  lists_at_most n body -> lists_at_most n (try_except body).
Proof.
  intros Hb m. unfold try_except. destruct (Hb m) as (t & Hc & Hl & Hn).
  exists t. destruct (body m) as [m1 [[e|e]|[]]]; simpl in *;
    (split; [exact Hc | split; [exact Hl | exact Hn]]).
Qed.

End ScriptFacts.

Ltac quiet_step :=
  first [ apply lists_ret | apply lists_say | apply lists_utcnow
        | apply lists_color | apply lists_new_updater
        | apply lists_update_dry_run ].

Ltac only_lists :=
  repeat first
    [ quiet_step
    | apply lists_find_bind; intros ?
    | apply lists_quiet_bind; [quiet_step | intros ?]
    | match goal with
      | |- lists_at_most _ (match ?x with _ => _ end) => destruct x
      end ].

(** X19. Run as shipped, neither [calendar_updater.py] nor any function
    of [example_usage.py] reads or writes a single event: the only remote
    calls are listings, one per search (two in [example_3]); every update
    is a dry run. *)
Theorem scripts_only_list (R : Type) (S : CalendarService R) :
  lists_at_most 1 (@main R S)
  /\ lists_at_most 1 (@example_1_update_meeting_titles R S)
  /\ lists_at_most 1 (@example_2_add_zoom_links R S)
  /\ lists_at_most 2 (@example_3_color_code_events R S)
  /\ lists_at_most 1 (@example_4_update_location R S)
  /\ lists_at_most 1 (@example_5_custom_search_and_update R S).
Proof.
  repeat split.
  - unfold main.
    apply lists_quiet_bind; [quiet_step | intros _].
    apply lists_quiet_bind; [quiet_step | intros _].
    apply lists_try_except. unfold main_body. only_lists.
  - unfold example_1_update_meeting_titles. only_lists.
  - unfold example_2_add_zoom_links. cbv zeta. only_lists.
  - unfold example_3_color_code_events. only_lists.
  - unfold example_4_update_location. only_lists.
  - unfold example_5_custom_search_and_update. cbv zeta. only_lists.
Qed.

(** *** What the scripts print *)

(** The dry-run preview of one event, as it appears on the console. *)
Definition preview (u : UpdateSpec) (e : Event) : console_line :=
  Lib (DryRun (event_get e "summary" "Untitled") (prepare_updates e u)).

Section ScriptRuns.
Context {R : Type} `{CalendarService R}.

Lemma printed_app (w w' : World R) (lines : list output) :
  stdout w' = stdout w ++ lines -> printed w w' = map Lib lines.
Proof. intros Hw. unfold printed. now rewrite Hw, drop_app_length. Qed.

(** One search step of a script, by the reply of the listing. *)
Lemma find_run (m : Machine R) (title_contains : option string)
    (start_date end_date : option datetime) (max_results : Z) :
  let req := listing_request (clock m (ticks m)) "primary" start_date end_date
                             max_results in
  let search := Searching (timeMin req) (timeMax req) in
  let ticks' := match start_date with
                | Some _ => ticks m
                | None => S (ticks m)
                end in
  let w := world m in
  find title_contains start_date end_date max_results m
  = match events_list (remote w) req with
    | (r, inl e) =>
        (mkMachine (auth_env m)
           (mkWorld r (calls w ++ [ListCall req]) (stdout w ++ [search]))
           (console m ++ [Lib search]) (clock m) ticks' (file_not_found m),
         inl (classify m e))
    | (r, inr reply) =>
        let listed := default [] (items reply) in
        let found := if truthy title_contains
                     then List.filter
                            (title_matches (default "" title_contains)) listed
                     else listed in
        let count := if truthy title_contains
                     then FoundMatching (length found)
                                        (default "" title_contains)
                     else Found (length found) in
        (mkMachine (auth_env m)
           (mkWorld r (calls w ++ [ListCall req])
                    (stdout w ++ [search; count]))
           (console m ++ [Lib search; Lib count]) (clock m) ticks'
           (file_not_found m),
         inr found)
    end.
Proof.
  intros req search ticks' w. subst req search ticks' w.
  unfold find, find_events. simpl.
  destruct (events_list (remote (world m)) _) as [r [e|reply]]; simpl.
  - rewrite (printed_app (world m) _ [Searching _ _]) by reflexivity.
    reflexivity.
  - change (match items reply with Some l => l | None => [] end)
      with (default [] (items reply)).
    destruct (truthy title_contains); unfold print, issue; simpl.
    + rewrite (printed_app (world m) _ [Searching _ _; FoundMatching _ _])
        by (simpl; now rewrite <- app_assoc).
      now rewrite <- app_assoc.
    + rewrite (printed_app (world m) _ [Searching _ _; Found _])
        by (simpl; now rewrite <- app_assoc).
      now rewrite <- app_assoc.
Qed.

(** One dry-run step of a script. *)
Lemma update_dry_run (m : Machine R) (events : list Event) (u : UpdateSpec) :
  let shown := filter (fun e => prepare_updates e u <> ∅) events in
  update events u true m
  = (mkMachine (auth_env m)
       (mkWorld (remote (world m)) (calls (world m))
          (stdout (world m)
           ++ map (fun e => DryRun (event_get e "summary" "Untitled")
                                   (prepare_updates e u)) shown))
       (console m ++ map (preview u) shown) (clock m) (ticks m)
       (file_not_found m),
     inr 0).
Proof.
  intros shown. subst shown. unfold update.
  rewrite bulk_update_dry_run_eq.
  erewrite printed_app by (simpl; reflexivity). now rewrite map_map.
Qed.

Lemma filter_keeps_all {A} (P : A -> Prop) `{forall x, Decision (P x)}
    (l : list A) :
  (forall x, P x) -> filter P l = l.
Proof.
  intros HP. induction l as [|x l IH]; [reflexivity|].
  rewrite filter_cons_True by apply HP. now rewrite IH.
Qed.

End ScriptRuns.

(** The update the [__main__] block of [calendar_updater.py] previews. *)
Definition main_update : UpdateSpec :=
  mkUpdateSpec None None None (Some "9") (Some "Updated via bulk script").

(** The setup hint, printed after the error exactly when the exception
    caught is a [FileNotFoundError]. *)
Definition hint_if_file_not_found {R} (m : Machine R) (e : exn)
  : list console_line :=
  if file_not_found m e then [SetupInstructions] else [].

(** X20. The script [calendar_updater.py] never ends in an exception and
    prints, after its two banner lines: for a missing client secret, the
    error naming the path and the setup hint, without touching the
    service; for any other authentication failure, its message, without
    touching the service; for a failed listing, the search line and the
    error; in these two cases the setup hint follows exactly when the
    exception is a [FileNotFoundError].  For an empty result it prints the
    counts and "no events"; and otherwise the counts followed by one
    preview per event found, each with the blueberry colour and the
    appended description. *)
Theorem main_reports
    (R : Type) (S : CalendarService R) (m : Machine R) :
  let banner := [Heading "Google Calendar Bulk Updater"; Heading (rule 50)] in
  let t1 := clock m (ticks m) in
  let t2 := clock m (Datatypes.S (ticks m)) in
  let req := mkListRequest "primary" t1 (add_days t2 30) 100 true
                           "startTime" in
  let search := Lib (Searching t1 (add_days t2 30)) in
  let out := main m in
  snd out = inr tt
  /\ match snd (_authenticate "credentials.json" (auth_env m)) with
     | MissingClientSecret p =>
         console (fst out)
         = console m ++ banner
           ++ [ErrorLine (missing_secret_message p); SetupInstructions]
         /\ world (fst out) = world m
     | AuthorizationFailure e =>
         console (fst out)
         = console m ++ banner ++ [ErrorLine e]
           ++ hint_if_file_not_found m e
         /\ world (fst out) = world m
     | Session _ =>
         match snd (events_list (remote (world m)) req) with
         | inl e =>
             console (fst out)
             = console m ++ banner ++ [search; ErrorLine e]
               ++ hint_if_file_not_found m e
         | inr reply =>
             let found := List.filter (title_matches "Meeting")
                                      (default [] (items reply)) in
             console (fst out)
             = console m ++ banner
               ++ [search; Lib (FoundMatching (length found) "Meeting")]
               ++ match found with
                  | [] => [NoEventsFound]
                  | _ :: _ => FoundRunningDryRun (length found)
                              :: map (preview main_update) found
                  end
         end
     end.
Proof.
  intros banner t1 t2 req search out. subst out.
  unfold main, try_except, main_body, new_updater, utcnow.
  unfold bind, say, hint_if_file_not_found, classify.
  cbn [auth_env world console clock ticks file_not_found fst snd].
  destruct (_authenticate "credentials.json" (auth_env m)) as [env [p|e|c]];
    cbn [fst snd auth_env world console clock ticks file_not_found].
  - split; [reflexivity|]. split; [|reflexivity].
    subst banner. rewrite <- !app_assoc. reflexivity.
  - destruct (file_not_found m e);
      cbn [fst snd auth_env world console clock ticks file_not_found];
      (split; [reflexivity|]); (split; [|reflexivity]);
      subst banner; rewrite <- !app_assoc; reflexivity.
  - rewrite find_run.
    cbn [auth_env world console clock ticks file_not_found].
    assert (Hreq :
      listing_request (clock m (Datatypes.S (Datatypes.S (ticks m))))
        "primary" (Some (clock m (ticks m)))
        (Some (add_days (clock m (Datatypes.S (ticks m))) 30)) 100 = req)
      by reflexivity.
    rewrite Hreq. clear Hreq. cbn [timeMin timeMax req]. fold t1 t2 search.
    destruct (events_list (remote (world m)) req) as [r [e|reply]];
      cbn [fst snd console].
    + unfold classify. cbn [file_not_found].
      destruct (file_not_found m e);
        cbn [fst snd auth_env world console clock ticks file_not_found];
        (split; [reflexivity|]); subst banner;
        rewrite <- !app_assoc; reflexivity.
    + cbn [truthy default from_option id].
      destruct (List.filter (title_matches "Meeting")
                            (default [] (items reply)))
        as [|e0 found] eqn:Hfound.
      * cbn [fst snd console]. split; [reflexivity|]. subst banner.
        rewrite <- !app_assoc. reflexivity.
      * unfold color. change (COLOR_IDS !! "blueberry") with (Some "9").
        cbn [fst snd console]. rewrite update_dry_run.
        cbn [fst snd console]. split; [reflexivity|].
        rewrite filter_keeps_all.
        -- subst banner. rewrite <- !app_assoc. reflexivity.
        -- intros x Hx. apply prepare_updates_empty_iff in Hx
             as (_ & _ & _ & Hc & _). discriminate.
Qed.

(** The update [example_5] previews, and the calendar used to run it. *)
Definition example_5_update : UpdateSpec :=
  mkUpdateSpec None None (Some "Remote") (Some "7") None.

Definition project_events : list Event :=
  [ sample_event "p1" "Project kickoff" None;
    mkEvent "p2" (<["location" := "Room 2"]> {["summary" := "PROJECT review"]});
    sample_event "p3" "Lunch" None ].

(** X21. When authentication succeeds and the listing returns,
    [example_5] prints the number of listed events, then the number of
    events it selected, then exactly that many previews.  Each selected
    event has "project" in its lower-cased title and an empty or missing
    location, and its preview sets the location to "Remote" and the colour
    to "7" and nothing else. *)
Theorem example_5_previews
    (R : Type) (S : CalendarService R) (m : Machine R) (c : Credentials)
    (r : R) (reply : list_response) :
  let req := mkListRequest "primary" (datetime_ymd 2025 10 20)
               (datetime_ymd 2025 10 27) 50 true "startTime" in
  snd (_authenticate "credentials.json" (auth_env m)) = Session c ->
  events_list (remote (world m)) req = (r, inr reply) ->
  let listed := default [] (items reply) in
  let chosen := List.filter project_without_location listed in
  let out := example_5_custom_search_and_update m in
  snd out = inr tt
  /\ console (fst out)
     = console m
       ++ [Lib (Searching (datetime_ymd 2025 10 20) (datetime_ymd 2025 10 27));
           Lib (Found (length listed));
           ProjectEventsWithoutLocation (length chosen)]
       ++ map (preview example_5_update) chosen
  /\ Forall (fun e =>
       Substring "project" (lower (event_get e "summary" ""))
       /\ event_get e "location" "" = ""
       /\ prepare_updates e example_5_update
          = <["colorId" := "7"]> {["location" := "Remote"]}) chosen.
Proof.
  intros req Hauth Hlist listed chosen out. subst out.
  unfold example_5_custom_search_and_update, new_updater.
  unfold bind, say.
  destruct (_authenticate "credentials.json" (auth_env m)) as [env res].
  simpl in Hauth. subst res.
  rewrite find_run. cbn [auth_env world console clock ticks].
  assert (Hreq :
    listing_request (clock m (ticks m)) "primary"
      (Some (datetime_ymd 2025 10 20)) (Some (datetime_ymd 2025 10 27)) 50
    = req) by reflexivity.
  rewrite Hreq, Hlist. clear Hreq.
  cbn [truthy timeMin timeMax req]. fold listed. fold chosen.
  unfold color. change (COLOR_IDS !! "peacock") with (Some "7").
  cbn [fst snd console]. rewrite update_dry_run. cbn [fst snd console].
  fold example_5_update.
  split; [reflexivity|]. split.
  - rewrite filter_keeps_all; [now rewrite <- !app_assoc|].
    intros x Hx. apply prepare_updates_empty_iff in Hx
      as (_ & _ & Hl & _). discriminate.
  - subst chosen. apply List.Forall_forall. intros e He.
    apply filter_In in He as [_ He]. unfold project_without_location in He.
    apply andb_true_iff in He as [Hp Hl].
    split; [now apply contains_spec|].
    split; [now apply String.eqb_eq|]. reflexivity.
Qed.

Lemma example_5_previews_witness :
  let m := mkMachine
             (mkAuthEnv (Some (mkCredentials true false None)) false
                        (fun c => inl "invalid_grant") (inl "access_denied"))
             (start (sample_calendar project_events)) []
             (fun k => Z.of_nat k) 0 (fun e => false) in
  console (fst (example_5_custom_search_and_update m))
  = [Lib (Searching (datetime_ymd 2025 10 20) (datetime_ymd 2025 10 27));
     Lib (Found 3); ProjectEventsWithoutLocation 1;
     preview example_5_update (sample_event "p1" "Project kickoff" None)].
Proof.
  intros m.
  destruct (example_5_previews MemRemote mem_service m
              (mkCredentials true false None)
              (sample_calendar project_events)
              (mkListResponse (Some project_events)))
    as (_ & Hconsole & _).
  - reflexivity.
  - vm_compute. reflexivity.
  - rewrite Hconsole. reflexivity.
Defined.
